(** * SpookyHash (C version): a shallow embedding of [spooky-c.c]

    The development follows the C source function by function.  64-bit
    words are integers of [Z] reduced modulo [2^64] after every addition
    and left shift; bytes are [Byte.byte]; a pointer into a message is a
    byte offset into a [list byte], read in little-endian order (the C
    file "assumes little endian ness").  A shift by a count outside
    [0, 63] is undefined in C: [rot64] returns [None] there, and every
    routine that rotates lives in the option monad.  A function that
    writes through pointers returns what it has written: the two hash
    words, and for the streaming interface the new [struct spooky_state].

    The first half of the file holds the embedding, the table-driven and
    block-wise forms the specification gives of the same routines, and
    the concrete inputs used below; the second half holds the
    properties. *)

From Stdlib Require Import ZArith Lia ZifyNat List.
From Stdlib Require Import Init.Byte Strings.Byte.
From stdpp Require Import base option list.

Local Open Scope Z_scope.

(** ** Machine words *)

Module Word.

Definition modulus : Z := 2 ^ 64.

(** [uint64_t] addition. *)
Definition add64 (a b : Z) : Z := (a + b) mod modulus.

(** [x << k] on [uint64_t]. *)
Definition shl64 (x k : Z) : Z := Z.shiftl x k mod modulus.

(** [x >> k] on [uint64_t]. *)
Definition shr64 (x k : Z) : Z := Z.shiftr x k.

(** A shift count for which C defines the shift of a 64-bit operand. *)
Definition shift_ok (k : Z) : bool := (0 <=? k) && (k <? 64).

(** The value of [(x << k) | (x >> (64 - k))]. *)
Definition rotl (x k : Z) : Z := Z.lor (shl64 x k) (shr64 x (64 - k)).

(** [(uint8_t) z]. *)
Definition u8 (z : Z) : Z := z mod 256.

End Word.
Import Word.

(** [SC_CONST], [SC_NUMVARS], [SC_BLOCKSIZE]. *)
Definition SC_CONST : Z := 0xdeadbeefdeadbeef.
Definition SC_NUMVARS : Z := 12.
Definition SC_BLOCKSIZE : Z := SC_NUMVARS * 8.

(** [static inline uint64_t rot64(uint64_t x, int k)]: both shifts must
    be defined. *)
Definition rot64 (x : Z) (k : Z) : option Z :=
  if shift_ok k && shift_ok (64 - k) then Some (rotl x k) else None.

(** ** The mixing networks *)

(** The twelve variables [h0 .. h11], and the four of the short hash. *)
Definition vars12 : Type := Z * Z * Z * Z * Z * Z * Z * Z * Z * Z * Z * Z.
Definition vars4 : Type := Z * Z * Z * Z.

(** [data[i]] for a block of 64-bit words. *)
Definition data_at (data : list Z) (i : nat) : Z := nth i data 0.

(** [mix]: one line of the definition per line of the C function. *)
Definition mix (data : list Z) (v : vars12) : option vars12 :=
  let '(h0, h1, h2, h3, h4, h5, h6, h7, h8, h9, h10, h11) := v in
  let h0 := add64 h0 (data_at data 0) in h11 ← rot64 h11 32; let h9 := Z.lxor h9 h1 in let h11 := add64 h11 h10 in let h1 := add64 h1 h10 in
  let h1 := add64 h1 (data_at data 1) in h0 ← rot64 h0 41; let h10 := Z.lxor h10 h2 in let h0 := add64 h0 h11 in let h2 := add64 h2 h11 in
  let h2 := add64 h2 (data_at data 2) in h1 ← rot64 h1 12; let h11 := Z.lxor h11 h3 in let h1 := add64 h1 h0 in let h3 := add64 h3 h0 in
  let h3 := add64 h3 (data_at data 3) in h2 ← rot64 h2 24; let h0 := Z.lxor h0 h4 in let h2 := add64 h2 h1 in let h4 := add64 h4 h1 in
  let h4 := add64 h4 (data_at data 4) in h3 ← rot64 h3 8; let h1 := Z.lxor h1 h5 in let h3 := add64 h3 h2 in let h5 := add64 h5 h2 in
  let h5 := add64 h5 (data_at data 5) in h4 ← rot64 h4 42; let h2 := Z.lxor h2 h6 in let h4 := add64 h4 h3 in let h6 := add64 h6 h3 in
  let h6 := add64 h6 (data_at data 6) in h5 ← rot64 h5 32; let h3 := Z.lxor h3 h7 in let h5 := add64 h5 h4 in let h7 := add64 h7 h4 in
  let h7 := add64 h7 (data_at data 7) in h6 ← rot64 h6 13; let h4 := Z.lxor h4 h8 in let h6 := add64 h6 h5 in let h8 := add64 h8 h5 in
  let h8 := add64 h8 (data_at data 8) in h7 ← rot64 h7 30; let h5 := Z.lxor h5 h9 in let h7 := add64 h7 h6 in let h9 := add64 h9 h6 in
  let h9 := add64 h9 (data_at data 9) in h8 ← rot64 h8 20; let h6 := Z.lxor h6 h10 in let h8 := add64 h8 h7 in let h10 := add64 h10 h7 in
  let h10 := add64 h10 (data_at data 10) in h9 ← rot64 h9 47; let h7 := Z.lxor h7 h11 in let h9 := add64 h9 h8 in let h11 := add64 h11 h8 in
  let h11 := add64 h11 (data_at data 11) in h10 ← rot64 h10 16; let h8 := Z.lxor h8 h0 in let h10 := add64 h10 h9 in let h0 := add64 h0 h9 in
  Some (h0, h1, h2, h3, h4, h5, h6, h7, h8, h9, h10, h11).

(** One pass of [end] (the C function runs the same twelve lines twice). *)
Definition end_pass (v : vars12) : option vars12 :=
  let '(h0, h1, h2, h3, h4, h5, h6, h7, h8, h9, h10, h11) := v in
  h0 ← rot64 h0 29; let h2 := Z.lxor h2 h11 in let h0 := add64 h0 h2 in
  h1 ← rot64 h1 52; let h3 := Z.lxor h3 h0 in let h1 := add64 h1 h3 in
  h2 ← rot64 h2 31; let h4 := Z.lxor h4 h1 in let h2 := add64 h2 h4 in
  h3 ← rot64 h3 43; let h5 := Z.lxor h5 h2 in let h3 := add64 h3 h5 in
  h4 ← rot64 h4 56; let h6 := Z.lxor h6 h3 in let h4 := add64 h4 h6 in
  h5 ← rot64 h5 34; let h7 := Z.lxor h7 h4 in let h5 := add64 h5 h7 in
  h6 ← rot64 h6 21; let h8 := Z.lxor h8 h5 in let h6 := add64 h6 h8 in
  h7 ← rot64 h7 17; let h9 := Z.lxor h9 h6 in let h7 := add64 h7 h9 in
  h8 ← rot64 h8 44; let h10 := Z.lxor h10 h7 in let h8 := add64 h8 h10 in
  h9 ← rot64 h9 38; let h11 := Z.lxor h11 h8 in let h9 := add64 h9 h11 in
  h10 ← rot64 h10 50; let h0 := Z.lxor h0 h9 in let h10 := add64 h10 h0 in
  h11 ← rot64 h11 50; let h1 := Z.lxor h1 h10 in let h11 := add64 h11 h1 in
  Some (h0, h1, h2, h3, h4, h5, h6, h7, h8, h9, h10, h11).

(** [end]: "once", then "twice". *)
Definition End (v : vars12) : option vars12 :=
  v ← end_pass v; end_pass v.

(** [short_mix]. *)
Definition short_mix (v : vars4) : option vars4 :=
  let '(h0, h1, h2, h3) := v in
  h2 ← rot64 h2 50; let h2 := add64 h2 h3 in let h0 := Z.lxor h0 h2 in
  h3 ← rot64 h3 52; let h3 := add64 h3 h0 in let h1 := Z.lxor h1 h3 in
  h0 ← rot64 h0 30; let h0 := add64 h0 h1 in let h2 := Z.lxor h2 h0 in
  h1 ← rot64 h1 41; let h1 := add64 h1 h2 in let h3 := Z.lxor h3 h1 in
  h2 ← rot64 h2 54; let h2 := add64 h2 h3 in let h0 := Z.lxor h0 h2 in
  h3 ← rot64 h3 48; let h3 := add64 h3 h0 in let h1 := Z.lxor h1 h3 in
  h0 ← rot64 h0 38; let h0 := add64 h0 h1 in let h2 := Z.lxor h2 h0 in
  h1 ← rot64 h1 37; let h1 := add64 h1 h2 in let h3 := Z.lxor h3 h1 in
  h2 ← rot64 h2 62; let h2 := add64 h2 h3 in let h0 := Z.lxor h0 h2 in
  h3 ← rot64 h3 34; let h3 := add64 h3 h0 in let h1 := Z.lxor h1 h3 in
  h0 ← rot64 h0 5; let h0 := add64 h0 h1 in let h2 := Z.lxor h2 h0 in
  h1 ← rot64 h1 36; let h1 := add64 h1 h2 in let h3 := Z.lxor h3 h1 in
  Some (h0, h1, h2, h3).

(** [short_end]. *)
Definition short_end (v : vars4) : option vars4 :=
  let '(h0, h1, h2, h3) := v in
  let h3 := Z.lxor h3 h2 in h2 ← rot64 h2 15; let h3 := add64 h3 h2 in
  let h0 := Z.lxor h0 h3 in h3 ← rot64 h3 52; let h0 := add64 h0 h3 in
  let h1 := Z.lxor h1 h0 in h0 ← rot64 h0 26; let h1 := add64 h1 h0 in
  let h2 := Z.lxor h2 h1 in h1 ← rot64 h1 51; let h2 := add64 h2 h1 in
  let h3 := Z.lxor h3 h2 in h2 ← rot64 h2 28; let h3 := add64 h3 h2 in
  let h0 := Z.lxor h0 h3 in h3 ← rot64 h3 9; let h0 := add64 h0 h3 in
  let h1 := Z.lxor h1 h0 in h0 ← rot64 h0 47; let h1 := add64 h1 h0 in
  let h2 := Z.lxor h2 h1 in h1 ← rot64 h1 54; let h2 := add64 h2 h1 in
  let h3 := Z.lxor h3 h2 in h2 ← rot64 h2 32; let h3 := add64 h3 h2 in
  let h0 := Z.lxor h0 h3 in h3 ← rot64 h3 25; let h0 := add64 h0 h3 in
  let h1 := Z.lxor h1 h0 in h0 ← rot64 h0 63; let h1 := add64 h1 h0 in
  Some (h0, h1, h2, h3).

(** ** Bytes and memory *)

(** The value of a byte as an unsigned integer, and [(uint8_t) z] as a
    byte. *)
Definition byte_val (b : byte) : Z := Z.of_N (Byte.to_N b).
Definition byte_of (z : Z) : byte := default x00 (Byte.of_N (Z.to_N (u8 z))).

(** A pointer is a byte offset [u] into the memory [mem] it points into;
    [p8], [p32] and [p64] are the members of the C unions, indexed as in
    C ([u.p64[i]] is the little-endian word at byte [u + 8 * i]).  A read
    past the end of [mem] (which the callers' contract excludes) yields
    zero bytes. *)
Definition p8 (mem : list byte) (u i : nat) : Z :=
  byte_val (nth (u + i) mem x00).

Fixpoint le_read (n : nat) (mem : list byte) (off : nat) : Z :=
  match n with
  | O => 0
  | S n' => p8 mem off 0 + 256 * le_read n' mem (S off)
  end.

Definition p32 (mem : list byte) (u i : nat) : Z := le_read 4 mem (u + 4 * i).
Definition p64 (mem : list byte) (u i : nat) : Z := le_read 8 mem (u + 8 * i).

(** The [SC_NUMVARS] words of the block that starts at [u]. *)
Definition words (mem : list byte) (u : nat) : list Z :=
  map (p64 mem u) (seq 0 12).

(** [memcpy(&dst[off], src, length src)] and [memset(&dst[off], b, n)],
    for writes that stay inside [dst]. *)
Definition memcpy (dst : list byte) (off : nat) (src : list byte) : list byte :=
  take off dst ++ src ++ drop (off + length src) dst.
Definition memset (dst : list byte) (off : nat) (b : byte) (n : nat) : list byte :=
  take off dst ++ replicate n b ++ drop (off + n) dst.

(** The [n] bytes at [&mem[u]]. *)
Definition bytes_at (mem : list byte) (u n : nat) : list byte :=
  take n (drop u mem).

(** [size_t] arithmetic (LP64: 64 bits). *)
Definition size_wrap (z : Z) : Z := z mod 2 ^ 64.

(** ** The short hash *)

(** The loop "handle all complete sets of 32 bytes": [u.p64] advances by
    four words while it is below [endp = u.p64 + (length/32)*4], that is
    [n = length / 32] times. *)
Fixpoint short_blocks (n : nat) (mem : list byte) (u : nat) (v : vars4)
  : option (nat * vars4) :=
  match n with
  | O => Some (u, v)
  | S n' =>
      let '(a, b, c, d) := v in
      let c := add64 c (p64 mem u 0) in
      let d := add64 d (p64 mem u 1) in
      '(a, b, c, d) ← short_mix (a, b, c, d);
      let a := add64 a (p64 mem u 2) in
      let b := add64 b (p64 mem u 3) in
      short_blocks n' mem (u + 32)%nat (a, b, c, d)
  end.

(** Lines 205-231 of [spooky_shorthash]: initialisation and the 32-byte
    and 16-byte chunks.  The result is the pointer [u], [remainder] and
    [a, b, c, d] as they stand in front of "Handle the last 0..15 bytes". *)
Definition short_chunks (message : list byte) (length : Z) (hash1 hash2 : Z)
  : option (nat * Z * vars4) :=
  let u := 0%nat in
  let remainder := length mod 32 in
  let a := hash1 in
  let b := hash2 in
  let c := 0 in
  let d := 0 in
  if 15 <? length then
    '(u, (a, b, c, d)) ← short_blocks (Z.to_nat (length / 32)) message u (a, b, c, d);
    if 16 <=? remainder then
      let c := add64 c (p64 message u 0) in
      let d := add64 d (p64 message u 1) in
      '(a, b, c, d) ← short_mix (a, b, c, d);
      let u := (u + 16)%nat in
      let remainder := remainder - 16 in
      Some (u, remainder, (a, b, c, d))
    else Some (u, remainder, (a, b, c, d))
  else Some (u, remainder, (a, b, c, d)).

(** The [switch (remainder)] of lines 235-274.  Every [case] label is a
    function of the current [(c, d)]; a label without [break] continues
    with the next one. *)
Definition short_switch (mem : list byte) (u : nat) (remainder : Z) (c d : Z)
  : Z * Z :=
  let case_12 '(c, d) :=
    let d := add64 d (p32 mem u 2) in
    let c := add64 c (p64 mem u 0) in (c, d) in
  let case_13 '(c, d) := case_12 (c, add64 d (shl64 (p8 mem u 12) 32)) in
  let case_14 '(c, d) := case_13 (c, add64 d (shl64 (p8 mem u 13) 40)) in
  let case_15 '(c, d) := case_14 (c, add64 d (shl64 (p8 mem u 14) 48)) in
  let case_8 '(c, d) := (add64 c (p64 mem u 0), d) in
  let case_9 '(c, d) := case_8 (c, add64 d (p8 mem u 8)) in
  let case_10 '(c, d) := case_9 (c, add64 d (shl64 (p8 mem u 9) 8)) in
  let case_11 '(c, d) := case_10 (c, add64 d (shl64 (p8 mem u 10) 16)) in
  let case_4 '(c, d) := (add64 c (p32 mem u 0), d) in
  let case_5 '(c, d) := case_4 (add64 c (shl64 (p8 mem u 4) 32), d) in
  let case_6 '(c, d) := case_5 (add64 c (shl64 (p8 mem u 5) 40), d) in
  let case_7 '(c, d) := case_6 (add64 c (shl64 (p8 mem u 6) 48), d) in
  let case_1 '(c, d) := (add64 c (p8 mem u 0), d) in
  let case_2 '(c, d) := case_1 (add64 c (shl64 (p8 mem u 1) 8), d) in
  let case_3 '(c, d) := case_2 (add64 c (shl64 (p8 mem u 2) 16), d) in
  match remainder with
  | 15 => case_15 (c, d)
  | 14 => case_14 (c, d)
  | 13 => case_13 (c, d)
  | 12 => case_12 (c, d)
  | 11 => case_11 (c, d)
  | 10 => case_10 (c, d)
  | 9 => case_9 (c, d)
  | 8 => case_8 (c, d)
  | 7 => case_7 (c, d)
  | 6 => case_6 (c, d)
  | 5 => case_5 (c, d)
  | 4 => case_4 (c, d)
  | 3 => case_3 (c, d)
  | 2 => case_2 (c, d)
  | 1 => case_1 (c, d)
  | 0 => (add64 c SC_CONST, add64 d SC_CONST)
  | _ => (c, d)
  end.

(** Lines 233-274: "Handle the last 0..15 bytes, and its length".  The
    incoming [d] is overwritten by the assignment of line 234. *)
Definition short_tail (mem : list byte) (u : nat) (length remainder : Z)
  (c d : Z) : Z * Z :=
  let d := shl64 length 56 in
  short_switch mem u remainder c d.

(** [spooky_shorthash]; [hash1] and [hash2] are read as the seeds, the
    result is the pair written back through the two pointers. *)
Definition spooky_shorthash (message : list byte) (length : Z) (hash1 hash2 : Z)
  : option (Z * Z) :=
  '(u, remainder, (a, b, c, d)) ← short_chunks message length hash1 hash2;
  let '(c, d) := short_tail message u length remainder c d in
  '(a, b, c, d) ← short_end (a, b, c, d);
  Some (a, b).

(** ** The one-shot hash *)

(** "handle all whole blocks of SC_BLOCKSIZE bytes": [n] blocks read in
    place, starting at [u]. *)
Fixpoint mix_blocks (n : nat) (mem : list byte) (u : nat) (v : vars12)
  : option vars12 :=
  match n with
  | O => Some v
  | S n' => v ← mix (words mem u) v; mix_blocks n' mem (u + 96)%nat v
  end.

(** The seeding [h0 = h3 = h6 = h9 = seed1; h1 = h4 = h7 = h10 = seed2;
    h2 = h5 = h8 = h11 = SC_CONST]. *)
Definition seed_vars (seed1 seed2 : Z) : vars12 :=
  (seed1, seed2, SC_CONST, seed1, seed2, SC_CONST,
   seed1, seed2, SC_CONST, seed1, seed2, SC_CONST).

(** A local [uint64_t buf[SC_NUMVARS]]; its 96 bytes are all overwritten
    before they are read. *)
Definition local_buf : list byte := replicate 96 x00.

(** [spooky_hash128]. *)
Definition spooky_hash128 (message : list byte) (length : Z) (hash1 hash2 : Z)
  : option (Z * Z) :=
  if length <? SC_BLOCKSIZE then spooky_shorthash message length hash1 hash2
  else
    let v := seed_vars hash1 hash2 in
    let u := 0%nat in
    let nblocks := Z.to_nat (length / SC_BLOCKSIZE) in
    let endp := (u + nblocks * 96)%nat in
    v ← mix_blocks nblocks message u v;
    let remainder := length - Z.of_nat endp in
    let buf := memcpy local_buf 0 (bytes_at message endp (Z.to_nat remainder)) in
    let buf := memset buf (Z.to_nat remainder) x00 (Z.to_nat (SC_BLOCKSIZE - remainder)) in
    let buf := <[95%nat := byte_of length]> buf in
    v ← mix (words buf 0) v;
    '(h0, h1, h2, h3, h4, h5, h6, h7, h8, h9, h10, h11) ← End v;
    Some (h0, h1).

(** [spooky_hash64]: [hash1] is a copy of [seed], and [seed] itself is
    passed as the second in/out word. *)
Definition spooky_hash64 (message : list byte) (length : Z) (seed : Z)
  : option Z :=
  let hash1 := seed in
  '(hash1, seed) ← spooky_hash128 message length hash1 seed;
  Some hash1.

(** [spooky_hash32].  The parameter is [uint32_t seed]: the argument
    arrives converted to 32 bits. *)
Definition spooky_hash32 (message : list byte) (length : Z) (seed : Z)
  : option Z :=
  let seed := seed mod 2 ^ 32 in
  let hash1 := seed in
  let hash2 := seed in
  '(hash1, hash2) ← spooky_hash128 message length hash1 hash2;
  Some (hash1 mod 2 ^ 32).

(** The length argument that goes with a message held as a list. *)
Definition len (message : list byte) : Z := Z.of_nat (length message).

(** ** The streaming interface *)

(** [struct spooky_state]; [m_data] is the 96-byte buffer seen as bytes. *)
Record spooky_state : Type := State {
  m_data : list byte;
  m_state : vars12;
  m_length : Z;
  m_remainder : Z
}.

Definition set_m_data (state : spooky_state) (data : list byte) : spooky_state :=
  State data (m_state state) (m_length state) (m_remainder state).
Definition set_m_state (state : spooky_state) (v : vars12) : spooky_state :=
  State (m_data state) v (m_length state) (m_remainder state).
Definition set_m_length (state : spooky_state) (n : Z) : spooky_state :=
  State (m_data state) (m_state state) n (m_remainder state).
Definition set_m_remainder (state : spooky_state) (n : Z) : spooky_state :=
  State (m_data state) (m_state state) (m_length state) n.

(** [m_state[0]] and [m_state[1]]. *)
Definition m_state_0 (state : spooky_state) : Z :=
  let '(h0, _, _, _, _, _, _, _, _, _, _, _) := m_state state in h0.
Definition m_state_1 (state : spooky_state) : Z :=
  let '(_, h1, _, _, _, _, _, _, _, _, _, _) := m_state state in h1.

(** [spooky_init] writes four members of the caller's structure and
    leaves [m_data] and [m_state[2 .. 11]] as they were. *)
Definition spooky_init (state : spooky_state) (seed1 seed2 : Z) : spooky_state :=
  let state := set_m_length state 0 in
  let state := set_m_remainder state 0 in
  let '(_, _, h2, h3, h4, h5, h6, h7, h8, h9, h10, h11) := m_state state in
  set_m_state state (seed1, seed2, h2, h3, h4, h5, h6, h7, h8, h9, h10, h11).

(** The second loop of [spooky_update] (taken when unaligned reads are
    not allowed and the pointer is not 8-byte aligned): every block goes
    through [state->m_data]. *)
Fixpoint mix_blocks_copied (n : nat) (mem : list byte) (u : nat)
  (data : list byte) (v : vars12) : option (list byte * vars12) :=
  match n with
  | O => Some (data, v)
  | S n' =>
      let data := memcpy data 0 (bytes_at mem u 96) in
      v ← mix (words data 0) v;
      mix_blocks_copied n' mem (u + 96)%nat data v
  end.

(** Lines 343-375 of [spooky_update]: the whole blocks that start at
    [u], the leftover bytes, and the write-back of the variables.
    [direct] is the value of the test
    [ALLOW_UNALIGNED_READS || (u.i & 0x7) == 0] of line 346, which depends
    on the platform and on the address of the fragment. *)
Definition update_blocks (state : spooky_state) (direct : bool)
  (message : list byte) (u : nat) (length : Z) (v : vars12)
  : option spooky_state :=
  let nblocks := Z.to_nat (length / SC_BLOCKSIZE) in
  let endp := (u + nblocks * 96)%nat in
  let remainder := u8 (length - (Z.of_nat endp - Z.of_nat u)) in
  '(state, v) ←
    (if direct then
       v ← mix_blocks nblocks message u v; Some (state, v)
     else
       '(data, v) ← mix_blocks_copied nblocks message u (m_data state) v;
       Some (set_m_data state data, v));
  let state :=
    if 0 <? remainder then
      let state := set_m_remainder state remainder in
      set_m_data state
        (memcpy (m_data state) 0 (bytes_at message endp (Z.to_nat remainder)))
    else state in
  Some (set_m_state state v).

(** [spooky_update]: lines 288-341, then [update_blocks]. *)
Definition spooky_update (state : spooky_state) (direct : bool)
  (message : list byte) (length : Z) : option spooky_state :=
  let newLength := size_wrap (length + m_remainder state) in
  if newLength <? SC_BLOCKSIZE then
    let state := set_m_data state
      (memcpy (m_data state) (Z.to_nat (m_remainder state))
              (bytes_at message 0 (Z.to_nat length))) in
    let state := set_m_length state (size_wrap (length + m_length state)) in
    let state := set_m_remainder state (u8 newLength) in
    Some state
  else
    let v :=
      if m_length state <? SC_BLOCKSIZE
      then seed_vars (m_state_0 state) (m_state_1 state)
      else m_state state in
    let state := set_m_length state (size_wrap (length + m_length state)) in
    '(state, u, length, v) ←
      (if negb (m_remainder state =? 0) then
         let prefix := u8 (SC_BLOCKSIZE - m_remainder state) in
         let state := set_m_data state
           (memcpy (m_data state) (Z.to_nat (m_remainder state))
                   (bytes_at message 0 (Z.to_nat prefix))) in
         v ← mix (words (m_data state) 0) v;
         let u := Z.to_nat prefix in
         let length := size_wrap (length - prefix) in
         Some (state, u, length, v)
       else Some (state, 0%nat, length, v));
    update_blocks state direct message u length v.

(** [spooky_final].  [hash1] and [hash2] are the values found in the
    caller's two output variables; the result is the state after the call
    and the two words written through the pointers. *)
Definition spooky_final (state : spooky_state) (hash1 hash2 : Z)
  : option (spooky_state * (Z * Z)) :=
  if m_length state <? SC_BLOCKSIZE then
    '(hash1, hash2) ← spooky_shorthash (m_data state) (m_length state) hash1 hash2;
    Some (state, (hash1, hash2))
  else
    let v := m_state state in
    let remainder := u8 (m_remainder state) in
    let prefix := u8 (SC_BLOCKSIZE - remainder) in
    let state := set_m_data state
      (memset (m_data state) (Z.to_nat remainder) x00 (Z.to_nat prefix)) in
    let state := set_m_data state
      (<[95%nat := byte_of (m_length state)]> (m_data state)) in
    let data := words (m_data state) 0 in
    v ← mix data v;
    '(h0, h1, h2, h3, h4, h5, h6, h7, h8, h9, h10, h11) ← End v;
    Some (state, (h0, h1)).

(** A session: [spooky_update] once per fragment, in order.  Each
    fragment comes with the outcome of the alignment test for it. *)
Fixpoint spooky_updates (state : spooky_state)
  (fragments : list (bool * list byte)) : option spooky_state :=
  match fragments with
  | [] => Some state
  | (direct, message) :: rest =>
      state ← spooky_update state direct message (len message);
      spooky_updates state rest
  end.

(** A caller's structure before [spooky_init]: the buffer exists, its
    contents do not matter. *)
Definition blank_state : spooky_state :=
  State (replicate 96 x00) (0, 0, 0, 0, 0, 0, 0, 0, 0, 0, 0, 0) 0 0.

(** ** Table-driven forms of the mixing networks

    The specification describes every network as a loop over a table of
    rotation counts.  These definitions follow its words; the theorems
    below compare them with the unrolled C functions above. *)

Module Spec.

Definition mix_rotations : list Z :=
  [32; 41; 12; 24; 8; 42; 32; 13; 30; 20; 47; 16].
Definition end_rotations : list Z :=
  [29; 52; 31; 43; 56; 34; 21; 17; 44; 38; 50; 50].
Definition short_mix_rotations : list Z :=
  [50; 52; 30; 41; 54; 48; 38; 37; 62; 34; 5; 36].
Definition short_end_rotations : list Z :=
  [15; 52; 26; 51; 28; 9; 47; 54; 32; 25; 63].

(** [for i in idx: h = step h i], stopping at the first undefined step. *)
Fixpoint loop (step : list Z → nat → option (list Z)) (idx : list nat)
  (h : list Z) : option (list Z) :=
  match idx with
  | [] => Some h
  | i :: idx => h ← step h i; loop step idx h
  end.

(** [h[i % n]] and [h[i % n] = x] for an accumulator vector of [n] words. *)
Definition get (n : nat) (h : list Z) (i : nat) : Z := nth (i mod n) h 0.
Definition set (n : nat) (h : list Z) (i : nat) (x : Z) : list Z :=
  <[(i mod n)%nat := x]> h.

(** 4.2: [h[i] += data[i]; h[(i+11)%12] = rot64(h[(i+11)%12], R[i]);
    h[(i+9)%12] ^= h[(i+1)%12]; h[(i+11)%12] += h[(i+10)%12];
    h[(i+1)%12] += h[(i+10)%12]]. *)
Definition mix_step (data : list Z) (h : list Z) (i : nat) : option (list Z) :=
  let h := set 12 h i (add64 (get 12 h i) (data_at data i)) in
  r ← rot64 (get 12 h (i + 11)) (nth i mix_rotations 0);
  let h := set 12 h (i + 11) r in
  let h := set 12 h (i + 9) (Z.lxor (get 12 h (i + 9)) (get 12 h (i + 1))) in
  let h := set 12 h (i + 11) (add64 (get 12 h (i + 11)) (get 12 h (i + 10))) in
  let h := set 12 h (i + 1) (add64 (get 12 h (i + 1)) (get 12 h (i + 10))) in
  Some h.

Definition mix (data : list Z) (h : list Z) : option (list Z) :=
  loop (mix_step data) (seq 0 12) h.

(** 4.3: [h[i] = rot64(h[i], F[i]); h[(i+2)%12] ^= h[(i+11)%12];
    h[i] += h[(i+2)%12]], the whole round applied twice. *)
Definition end_step (h : list Z) (i : nat) : option (list Z) :=
  r ← rot64 (get 12 h i) (nth i end_rotations 0);
  let h := set 12 h i r in
  let h := set 12 h (i + 2) (Z.lxor (get 12 h (i + 2)) (get 12 h (i + 11))) in
  let h := set 12 h i (add64 (get 12 h i) (get 12 h (i + 2))) in
  Some h.

Definition End (h : list Z) : option (list Z) :=
  h ← loop end_step (seq 0 12) h; loop end_step (seq 0 12) h.

(** 4.4, ShortMix: twelve steps [x = rot64(x, r); x += y; z ^= x]; at
    step [i] the roles are [x = h[(i+2)%4]], [y = h[(i+3)%4]],
    [z = h[i%4]]. *)
Definition short_mix_step (h : list Z) (i : nat) : option (list Z) :=
  r ← rot64 (get 4 h (i + 2)) (nth i short_mix_rotations 0);
  let h := set 4 h (i + 2) r in
  let h := set 4 h (i + 2) (add64 (get 4 h (i + 2)) (get 4 h (i + 3))) in
  let h := set 4 h i (Z.lxor (get 4 h i) (get 4 h (i + 2))) in
  Some h.

Definition short_mix (h : list Z) : option (list Z) :=
  loop short_mix_step (seq 0 12) h.

(** 4.4, ShortEnd: eleven steps [z ^= x; x = rot64(x, r); z += x] with
    [x = h[(i+2)%4]] and [z = h[(i+3)%4]]. *)
Definition short_end_step (h : list Z) (i : nat) : option (list Z) :=
  let h := set 4 h (i + 3) (Z.lxor (get 4 h (i + 3)) (get 4 h (i + 2))) in
  r ← rot64 (get 4 h (i + 2)) (nth i short_end_rotations 0);
  let h := set 4 h (i + 2) r in
  let h := set 4 h (i + 3) (add64 (get 4 h (i + 3)) (get 4 h (i + 2))) in
  Some h.

Definition short_end (h : list Z) : option (list Z) :=
  loop short_end_step (seq 0 11) h.

End Spec.

(** The accumulators as the vector [h[0 .. n-1]]. *)
Definition vars12_list (v : vars12) : list Z :=
  let '(h0, h1, h2, h3, h4, h5, h6, h7, h8, h9, h10, h11) := v in
  [h0; h1; h2; h3; h4; h5; h6; h7; h8; h9; h10; h11].
Definition vars4_list (v : vars4) : list Z :=
  let '(h0, h1, h2, h3) := v in [h0; h1; h2; h3].

(** ** The one-shot routine as the specification words it (4.6)

    Whole blocks are cut off the front of the message; the leftover is
    zero-padded to a block whose last byte is the length modulo 256. *)

Module Spec128.
Definition block_words (block : list byte) : list Z := words block 0.

Fixpoint complete_blocks (n : nat) (message : list byte) : list (list byte) :=
  match n with
  | O => []
  | S n' => take 96 message :: complete_blocks n' (drop 96 message)
  end.

Definition final_block (leftover : list byte) (total : Z) : list byte :=
  <[95%nat := byte_of (total mod 256)]>
    (leftover ++ replicate (96 - length leftover) x00).

Fixpoint mix_each (blocks : list (list byte)) (v : vars12) : option vars12 :=
  match blocks with
  | [] => Some v
  | block :: blocks => v ← mix (block_words block) v; mix_each blocks v
  end.

Definition hash128 (message : list byte) (seed1 seed2 : Z) : option (Z * Z) :=
  if len message <? 96 then spooky_shorthash message (len message) seed1 seed2
  else
    let n := (length message / 96)%nat in
    let v := (seed1, seed2, 0xdeadbeefdeadbeef, seed1, seed2, 0xdeadbeefdeadbeef,
              seed1, seed2, 0xdeadbeefdeadbeef, seed1, seed2, 0xdeadbeefdeadbeef) in
    v ← mix_each (complete_blocks n message) v;
    v ← mix (block_words (final_block (drop (n * 96) message) (len message))) v;
    '(h0, h1, _, _, _, _, _, _, _, _, _, _) ← End v;
    Some (h0, h1).
End Spec128.

(** The tail step as the specification describes it: [length << 56] is
    added to the running [d]. *)
Definition short_tail_adding (mem : list byte) (u : nat) (length remainder : Z)
  (c d : Z) : Z * Z :=
  let d := add64 d (shl64 length 56) in
  short_switch mem u remainder c d.

(** The short hash with that tail step. *)
Definition shorthash_adding (message : list byte) (length : Z) (hash1 hash2 : Z)
  : option (Z * Z) :=
  '(u, remainder, (a, b, c, d)) ← short_chunks message length hash1 hash2;
  let '(c, d) := short_tail_adding message u length remainder c d in
  '(a, b, c, d) ← short_end (a, b, c, d);
  Some (a, b).

(** ** Streaming states and sessions *)

(** The bytes held back: [m_data[0 .. m_remainder)]. *)
Definition buffered (state : spooky_state) : list byte :=
  take (Z.to_nat (m_remainder state)) (m_data state).

(** The shape every state of a session has: a 96-byte buffer and
    [0 <= m_remainder < 96]. *)
Definition well_formed (state : spooky_state) : Prop :=
  length (m_data state) = 96%nat ∧ 0 <= m_remainder state < 96.

(** Two states with the same logical content: they agree on everything
    but the bytes of [m_data] from [m_remainder] on. *)
Definition same_logical (s t : spooky_state) : Prop :=
  m_state s = m_state t ∧ m_length s = m_length t
  ∧ m_remainder s = m_remainder t ∧ buffered s = buffered t.

(** The block [spooky_final] mixes last: the held-back bytes, zeros, and
    the low byte of the length in the last position. *)
Definition padded (state : spooky_state) : list byte :=
  <[95%nat := byte_of (m_length state)]>
    (buffered state
     ++ replicate (96 - Z.to_nat (m_remainder state)) x00).

(** The calls a client can make once the state is initialised. *)
Inductive call : Type :=
  | Update (direct : bool) (message : list byte)
  | Final (hash1 hash2 : Z).

(** Run the calls in order; the result is what the [Final] calls
    returned. *)
Fixpoint session (state : spooky_state) (calls : list call)
  : option (list (Z * Z)) :=
  match calls with
  | [] => Some []
  | Update direct message :: calls =>
      state ← spooky_update state direct message (len message);
      session state calls
  | Final hash1 hash2 :: calls =>
      '(state, out) ← spooky_final state hash1 hash2;
      outs ← session state calls;
      Some (out :: outs)
  end.

(** The number of bytes the calls append. *)
Fixpoint appended (calls : list call) : Z :=
  match calls with
  | [] => 0
  | Update _ message :: calls => len message + appended calls
  | Final _ _ :: calls => appended calls
  end.

(** ** Concrete inputs *)

(** The bytes [0, 1, 2, ..., n - 1]. *)
Definition count_bytes (n : nat) : list byte :=
  map (λ i, byte_of (Z.of_nat i)) (seq 0 n).

(** A 96-byte message fed as 50 bytes and then 46 bytes. *)
Definition boundary_message : list byte := count_bytes 96.
Definition boundary_fragments (direct : bool) : list (bool * list byte) :=
  [(direct, take 50 boundary_message); (direct, drop 50 boundary_message)].

(** A 200-byte message fed as 50 bytes and then 150 bytes. *)
Definition long_message : list byte := count_bytes 200.
Definition long_fragments : list (bool * list byte) :=
  [(true, take 50 long_message); (true, drop 50 long_message)].

(** The state of a session after [long_fragments] (seeds 1 and 2):
    [m_length = 200], [m_remainder = 8], and behind the eight held-back
    bytes the buffer still holds bytes 8 .. 95 of the message. *)
Definition long_state : spooky_state :=
  default blank_state
    (spooky_updates (spooky_init blank_state 1 2) long_fragments).

(** The state of a session after [boundary_fragments] (seeds 1 and 2). *)
Definition boundary_state : spooky_state :=
  default blank_state
    (spooky_updates (spooky_init blank_state 1 2) (boundary_fragments true)).

(** A whole streaming run on the caller's structure [state0]:
    [spooky_init] with the seeds, one [spooky_update] per fragment, then
    [spooky_final] with [hash1] and [hash2] in the caller's output
    variables. *)
Definition streamed (state0 : spooky_state) (seed1 seed2 : Z)
  (fragments : list (bool * list byte)) (hash1 hash2 : Z) : option (Z * Z) :=
  state ← spooky_updates (spooky_init state0 seed1 seed2) fragments;
  snd <$> spooky_final state hash1 hash2.

(** All the bytes of a list of fragments. *)
Definition joined (fragments : list (bool * list byte)) : list byte :=
  concat (map snd fragments).

(** ** Sessions that keep clear of the block-boundary case *)

(** No call of the session starts with bytes held back and ends exactly
    on a multiple of 96 bytes; [sofar] is the number of bytes appended
    before the first fragment. *)
Fixpoint clean_boundaries (sofar : Z) (fragments : list (bool * list byte))
  : bool :=
  match fragments with
  | [] => true
  | (_, message) :: rest =>
      let after := sofar + len message in
      ((sofar mod 96 =? 0) || negb (after mod 96 =? 0))
      && clean_boundaries after rest
  end.

(** The state that goes with the bytes [sofar] appended after
    [spooky_init]: the byte count, the held-back tail, and the variables
    after every whole block. *)
Definition tracks (seed1 seed2 : Z) (sofar : list byte) (state : spooky_state)
  : Prop :=
  length (m_data state) = 96%nat
  ∧ m_length state = len sofar
  ∧ m_remainder state = Z.of_nat (length sofar mod 96)
  ∧ buffered state = drop (length sofar - length sofar mod 96) sofar
  ∧ (len sofar < 96 → m_state_0 state = seed1 ∧ m_state_1 state = seed2)
  ∧ (96 <= len sofar →
     mix_blocks (length sofar / 96) sofar 0 (seed_vars seed1 seed2)
     = Some (m_state state)).

(** ** States that behave alike *)

(** The variables [spooky_update] starts from on its long path. *)
Definition entry_vars (state : spooky_state) : vars12 :=
  if m_length state <? SC_BLOCKSIZE
  then seed_vars (m_state_0 state) (m_state_1 state)
  else m_state state.

(** Two states of sessions that the code cannot tell apart: the same
    counts and held-back bytes, and the same variables wherever the code
    reads them. *)
Definition alike (s t : spooky_state) : Prop :=
  m_length s = m_length t
  ∧ m_remainder s = m_remainder t
  ∧ buffered s = buffered t
  ∧ entry_vars s = entry_vars t
  ∧ (m_length s < 96 → m_remainder s = m_length s).

(** The little-endian value of the [n] bytes [f a], [f (a + 1)], ... *)
Fixpoint le_from (f : nat → Z) (n a : nat) : Z :=
  match n with
  | O => 0
  | S n' => f a + 256 * le_from f n' (S a)
  end.

(** A value of type [uint64_t]. *)
Definition in64 (x : Z) : Prop := 0 <= x < 2 ^ 64.

(** ** The networks of [spooky.h]

    The inline member functions of the C++ class [Spooky], embedded line
    by line like the C ones. *)

Module SpookyH.

(** [static inline uint64 Rot64(uint64 x, int k)]. *)
Definition Rot64 (x : Z) (k : Z) : option Z :=
  if shift_ok k && shift_ok (64 - k)
  then Some (Z.lor (shl64 x k) (shr64 x (64 - k)))
  else None.

(** [Mix]. *)
Definition Mix (data : list Z) (v : vars12) : option vars12 :=
  let '(h0, h1, h2, h3, h4, h5, h6, h7, h8, h9, h10, h11) := v in
  let h0 := add64 h0 (data_at data 0) in h11 ← Rot64 h11 32; let h9 := Z.lxor h9 h1 in let h11 := add64 h11 h10 in let h1 := add64 h1 h10 in
  let h1 := add64 h1 (data_at data 1) in h0 ← Rot64 h0 41; let h10 := Z.lxor h10 h2 in let h0 := add64 h0 h11 in let h2 := add64 h2 h11 in
  let h2 := add64 h2 (data_at data 2) in h1 ← Rot64 h1 12; let h11 := Z.lxor h11 h3 in let h1 := add64 h1 h0 in let h3 := add64 h3 h0 in
  let h3 := add64 h3 (data_at data 3) in h2 ← Rot64 h2 24; let h0 := Z.lxor h0 h4 in let h2 := add64 h2 h1 in let h4 := add64 h4 h1 in
  let h4 := add64 h4 (data_at data 4) in h3 ← Rot64 h3 8; let h1 := Z.lxor h1 h5 in let h3 := add64 h3 h2 in let h5 := add64 h5 h2 in
  let h5 := add64 h5 (data_at data 5) in h4 ← Rot64 h4 42; let h2 := Z.lxor h2 h6 in let h4 := add64 h4 h3 in let h6 := add64 h6 h3 in
  let h6 := add64 h6 (data_at data 6) in h5 ← Rot64 h5 32; let h3 := Z.lxor h3 h7 in let h5 := add64 h5 h4 in let h7 := add64 h7 h4 in
  let h7 := add64 h7 (data_at data 7) in h6 ← Rot64 h6 13; let h4 := Z.lxor h4 h8 in let h6 := add64 h6 h5 in let h8 := add64 h8 h5 in
  let h8 := add64 h8 (data_at data 8) in h7 ← Rot64 h7 30; let h5 := Z.lxor h5 h9 in let h7 := add64 h7 h6 in let h9 := add64 h9 h6 in
  let h9 := add64 h9 (data_at data 9) in h8 ← Rot64 h8 20; let h6 := Z.lxor h6 h10 in let h8 := add64 h8 h7 in let h10 := add64 h10 h7 in
  let h10 := add64 h10 (data_at data 10) in h9 ← Rot64 h9 47; let h7 := Z.lxor h7 h11 in let h9 := add64 h9 h8 in let h11 := add64 h11 h8 in
  let h11 := add64 h11 (data_at data 11) in h10 ← Rot64 h10 16; let h8 := Z.lxor h8 h0 in let h10 := add64 h10 h9 in let h0 := add64 h0 h9 in
  Some (h0, h1, h2, h3, h4, h5, h6, h7, h8, h9, h10, h11).

(** [End]: the header writes the twelve lines out twice. *)
Definition End (v : vars12) : option vars12 :=
  let '(h0, h1, h2, h3, h4, h5, h6, h7, h8, h9, h10, h11) := v in
  h0 ← Rot64 h0 29; let h2 := Z.lxor h2 h11 in let h0 := add64 h0 h2 in
  h1 ← Rot64 h1 52; let h3 := Z.lxor h3 h0 in let h1 := add64 h1 h3 in
  h2 ← Rot64 h2 31; let h4 := Z.lxor h4 h1 in let h2 := add64 h2 h4 in
  h3 ← Rot64 h3 43; let h5 := Z.lxor h5 h2 in let h3 := add64 h3 h5 in
  h4 ← Rot64 h4 56; let h6 := Z.lxor h6 h3 in let h4 := add64 h4 h6 in
  h5 ← Rot64 h5 34; let h7 := Z.lxor h7 h4 in let h5 := add64 h5 h7 in
  h6 ← Rot64 h6 21; let h8 := Z.lxor h8 h5 in let h6 := add64 h6 h8 in
  h7 ← Rot64 h7 17; let h9 := Z.lxor h9 h6 in let h7 := add64 h7 h9 in
  h8 ← Rot64 h8 44; let h10 := Z.lxor h10 h7 in let h8 := add64 h8 h10 in
  h9 ← Rot64 h9 38; let h11 := Z.lxor h11 h8 in let h9 := add64 h9 h11 in
  h10 ← Rot64 h10 50; let h0 := Z.lxor h0 h9 in let h10 := add64 h10 h0 in
  h11 ← Rot64 h11 50; let h1 := Z.lxor h1 h10 in let h11 := add64 h11 h1 in
  h0 ← Rot64 h0 29; let h2 := Z.lxor h2 h11 in let h0 := add64 h0 h2 in
  h1 ← Rot64 h1 52; let h3 := Z.lxor h3 h0 in let h1 := add64 h1 h3 in
  h2 ← Rot64 h2 31; let h4 := Z.lxor h4 h1 in let h2 := add64 h2 h4 in
  h3 ← Rot64 h3 43; let h5 := Z.lxor h5 h2 in let h3 := add64 h3 h5 in
  h4 ← Rot64 h4 56; let h6 := Z.lxor h6 h3 in let h4 := add64 h4 h6 in
  h5 ← Rot64 h5 34; let h7 := Z.lxor h7 h4 in let h5 := add64 h5 h7 in
  h6 ← Rot64 h6 21; let h8 := Z.lxor h8 h5 in let h6 := add64 h6 h8 in
  h7 ← Rot64 h7 17; let h9 := Z.lxor h9 h6 in let h7 := add64 h7 h9 in
  h8 ← Rot64 h8 44; let h10 := Z.lxor h10 h7 in let h8 := add64 h8 h10 in
  h9 ← Rot64 h9 38; let h11 := Z.lxor h11 h8 in let h9 := add64 h9 h11 in
  h10 ← Rot64 h10 50; let h0 := Z.lxor h0 h9 in let h10 := add64 h10 h0 in
  h11 ← Rot64 h11 50; let h1 := Z.lxor h1 h10 in let h11 := add64 h11 h1 in
  Some (h0, h1, h2, h3, h4, h5, h6, h7, h8, h9, h10, h11).

(** [ShortMix]. *)
Definition ShortMix (v : vars4) : option vars4 :=
  let '(h0, h1, h2, h3) := v in
  h2 ← Rot64 h2 50; let h2 := add64 h2 h3 in let h0 := Z.lxor h0 h2 in
  h3 ← Rot64 h3 52; let h3 := add64 h3 h0 in let h1 := Z.lxor h1 h3 in
  h0 ← Rot64 h0 30; let h0 := add64 h0 h1 in let h2 := Z.lxor h2 h0 in
  h1 ← Rot64 h1 41; let h1 := add64 h1 h2 in let h3 := Z.lxor h3 h1 in
  h2 ← Rot64 h2 54; let h2 := add64 h2 h3 in let h0 := Z.lxor h0 h2 in
  h3 ← Rot64 h3 48; let h3 := add64 h3 h0 in let h1 := Z.lxor h1 h3 in
  h0 ← Rot64 h0 38; let h0 := add64 h0 h1 in let h2 := Z.lxor h2 h0 in
  h1 ← Rot64 h1 37; let h1 := add64 h1 h2 in let h3 := Z.lxor h3 h1 in
  h2 ← Rot64 h2 62; let h2 := add64 h2 h3 in let h0 := Z.lxor h0 h2 in
  h3 ← Rot64 h3 34; let h3 := add64 h3 h0 in let h1 := Z.lxor h1 h3 in
  h0 ← Rot64 h0 5; let h0 := add64 h0 h1 in let h2 := Z.lxor h2 h0 in
  h1 ← Rot64 h1 36; let h1 := add64 h1 h2 in let h3 := Z.lxor h3 h1 in
  Some (h0, h1, h2, h3).

(** [ShortEnd]. *)
Definition ShortEnd (v : vars4) : option vars4 :=
  let '(h0, h1, h2, h3) := v in
  let h3 := Z.lxor h3 h2 in h2 ← Rot64 h2 15; let h3 := add64 h3 h2 in
  let h0 := Z.lxor h0 h3 in h3 ← Rot64 h3 52; let h0 := add64 h0 h3 in
  let h1 := Z.lxor h1 h0 in h0 ← Rot64 h0 26; let h1 := add64 h1 h0 in
  let h2 := Z.lxor h2 h1 in h1 ← Rot64 h1 51; let h2 := add64 h2 h1 in
  let h3 := Z.lxor h3 h2 in h2 ← Rot64 h2 28; let h3 := add64 h3 h2 in
  let h0 := Z.lxor h0 h3 in h3 ← Rot64 h3 9; let h0 := add64 h0 h3 in
  let h1 := Z.lxor h1 h0 in h0 ← Rot64 h0 47; let h1 := add64 h1 h0 in
  let h2 := Z.lxor h2 h1 in h1 ← Rot64 h1 54; let h2 := add64 h2 h1 in
  let h3 := Z.lxor h3 h2 in h2 ← Rot64 h2 32; let h3 := add64 h3 h2 in
  let h0 := Z.lxor h0 h3 in h3 ← Rot64 h3 25; let h0 := add64 h0 h3 in
  let h1 := Z.lxor h1 h0 in h0 ← Rot64 h0 63; let h1 := add64 h1 h0 in
  Some (h0, h1, h2, h3).

End SpookyH.

(** Accumulators that hold values of type [uint64_t]. *)
Definition words12 (v : vars12) : Prop := Forall in64 (vars12_list v).
Definition words4 (v : vars4) : Prop := Forall in64 (vars4_list v).

(** A 192-byte message fed as 50 bytes and then 142 bytes, the second
    fragment through either loop of [spooky_update]. *)
Definition two_block_fragments (direct : bool) : list (bool * list byte) :=
  [(true, take 50 (count_bytes 192)); (direct, drop 50 (count_bytes 192))].

(** * Properties *)

#[global] Arguments mix : simpl never.
#[global] Arguments End : simpl never.
#[global] Arguments short_mix : simpl never.
#[global] Arguments short_end : simpl never.
#[global] Arguments short_switch : simpl never.
#[global] Arguments short_tail : simpl never.

(** ** Rotation and the mixing networks *)

Ltac destruct_vars v :=
  unfold vars12, vars4 in v;
  repeat match type of v with
    | (_ * _)%type => let x := fresh "h" in destruct v as [v x]
    end.

(** Unfold a network on symbolic words, keeping the word operations
    folded. *)
Ltac run_network := cbv -[add64 rotl Z.lxor data_at].

Lemma shift_ok_iff (k : Z) : shift_ok k = true ↔ 0 <= k < 64.
Proof. unfold shift_ok. rewrite andb_true_iff, Z.leb_le, Z.ltb_lt. done. Qed.

Lemma rot64_defined_iff (x k : Z) : is_Some (rot64 x k) ↔ 1 <= k <= 63.
Proof.
  unfold rot64.
  destruct (shift_ok k && shift_ok (64 - k)) eqn:E.
  - apply andb_true_iff in E as [E1 E2].
    apply shift_ok_iff in E1, E2. split; [lia | eauto].
  - split; [intros [? ?]; discriminate |].
    intros Hk. exfalso.
    apply andb_false_iff in E as [E | E];
      apply not_true_iff_false in E; apply E, shift_ok_iff; lia.
Qed.

Lemma rot64_in_range (x k : Z) : 1 <= k <= 63 → rot64 x k = Some (rotl x k).
Proof.
  intros Hk. unfold rot64.
  destruct (shift_ok k && shift_ok (64 - k)) eqn:E; [done |].
  exfalso. apply andb_false_iff in E as [E | E];
    apply not_true_iff_false in E; apply E, shift_ok_iff; lia.
Qed.

Lemma mix_total (data : list Z) (v : vars12) : is_Some (mix data v).
Proof. destruct_vars v. run_network. eexists; reflexivity. Qed.

Lemma end_pass_total (v : vars12) : is_Some (end_pass v).
Proof. destruct_vars v. run_network. eexists; reflexivity. Qed.

Lemma End_total (v : vars12) : is_Some (End v).
Proof.
  unfold End. destruct (end_pass_total v) as [v' ->]. simpl.
  apply end_pass_total.
Qed.

Lemma short_mix_total (v : vars4) : is_Some (short_mix v).
Proof. destruct_vars v. run_network. eexists; reflexivity. Qed.

Lemma short_end_total (v : vars4) : is_Some (short_end v).
Proof. destruct_vars v. run_network. eexists; reflexivity. Qed.

(** C7: one application of the long mixer is, for every data block and
    every accumulator vector, the loop [for i = 0 .. 11] of the five
    updates [h[i] += data[i]; h[(i+11)%12] = rot64(h[(i+11)%12], R[i]);
    h[(i+9)%12] ^= h[(i+1)%12]; h[(i+11)%12] += h[(i+10)%12];
    h[(i+1)%12] += h[(i+10)%12]], and it always produces a result. *)
Theorem mix_is_table_driven (data : list Z) (v : vars12) :
  vars12_list <$> mix data v = Spec.mix data (vars12_list v)
  ∧ is_Some (mix data v).
Proof.
  split; [| apply mix_total].
  destruct_vars v. run_network. reflexivity.
Qed.

(** ** Memory, blocks and the final block *)

Lemma p8_nth (mem : list byte) (u i : nat) :
  p8 mem u i = byte_val (default x00 (mem !! (u + i)%nat)).
Proof. unfold p8. by rewrite nth_lookup. Qed.

Lemma le_read_ext (n : nat) (mem mem' : list byte) (off off' : nat) :
  (∀ j, (j < n)%nat → mem !! (off + j)%nat = mem' !! (off' + j)%nat) →
  le_read n mem off = le_read n mem' off'.
Proof.
  revert off off'. induction n as [|n IH]; intros off off' H; simpl; [done |].
  rewrite !p8_nth. rewrite (H 0%nat) by lia. f_equal. f_equal.
  apply IH. intros j Hj. specialize (H (S j)).
  replace (S off + j)%nat with (off + S j)%nat by lia.
  replace (S off' + j)%nat with (off' + S j)%nat by lia.
  apply H. lia.
Qed.

Lemma words_ext (mem mem' : list byte) (u u' : nat) :
  (∀ j, (j < 96)%nat → mem !! (u + j)%nat = mem' !! (u' + j)%nat) →
  words mem u = words mem' u'.
Proof.
  intros H. unfold words. apply map_ext_in. intros i Hi.
  apply in_seq in Hi. unfold p64. apply le_read_ext. intros j Hj.
  replace (u + 8 * i + j)%nat with (u + (8 * i + j))%nat by lia.
  replace (u' + 8 * i + j)%nat with (u' + (8 * i + j))%nat by lia.
  apply H. lia.
Qed.

Lemma words_block (mem : list byte) (u : nat) :
  words mem u = words (take 96 (drop u mem)) 0.
Proof.
  apply words_ext. intros j Hj.
  rewrite lookup_take_lt by lia. by rewrite lookup_drop.
Qed.

Lemma mix_blocks_each (n : nat) (mem : list byte) (u : nat) (v : vars12) :
  mix_blocks n mem u v = Spec128.mix_each (Spec128.complete_blocks n (drop u mem)) v.
Proof.
  revert u v. induction n as [|n IH]; intros u v; simpl; [done |].
  unfold Spec128.block_words. rewrite <- words_block.
  destruct (mix (words mem u) v) as [v' |]; simpl; [| done].
  rewrite IH. by rewrite drop_drop.
Qed.

Lemma length_memcpy (dst src : list byte) (off : nat) :
  (off + length src ≤ length dst)%nat →
  length (memcpy dst off src) = length dst.
Proof.
  intros H. unfold memcpy.
  rewrite !length_app, length_take, length_drop. lia.
Qed.

Lemma take_memcpy (dst src : list byte) (off : nat) :
  (off ≤ length dst)%nat →
  take (off + length src) (memcpy dst off src) = take off dst ++ src.
Proof.
  intros H. unfold memcpy. rewrite app_assoc.
  apply take_app_length'. rewrite length_app, length_take. lia.
Qed.

Lemma memcpy_to_end (dst src : list byte) (off : nat) :
  (off + length src = length dst)%nat →
  memcpy dst off src = take off dst ++ src.
Proof.
  intros H. unfold memcpy. rewrite (drop_ge dst) by lia. by rewrite app_nil_r.
Qed.

Lemma memset_to_end (dst : list byte) (off n : nat) (b : byte) :
  (off + n = length dst)%nat →
  memset dst off b n = take off dst ++ replicate n b.
Proof.
  intros H. unfold memset. rewrite (drop_ge dst) by lia. by rewrite app_nil_r.
Qed.

Lemma final_block_built (buf message : list byte) (endp r : nat) (total : Z) :
  length buf = 96%nat →
  (endp + r = length message)%nat → (r ≤ 96)%nat →
  <[95%nat := byte_of total]>
    (memset (memcpy buf 0 (bytes_at message endp r)) r x00 (96 - r))
  = Spec128.final_block (drop endp message) total.
Proof.
  intros Hbuf Hlen Hr. unfold Spec128.final_block, bytes_at.
  assert (Hd : length (drop endp message) = r) by (rewrite length_drop; lia).
  rewrite (take_ge (drop endp message)) by lia.
  rewrite memset_to_end by (rewrite length_memcpy; lia).
  pose proof (take_memcpy buf (drop endp message) 0) as Ht.
  simpl in Ht. rewrite Hd in Ht. rewrite Ht by lia.
  f_equal; [| by rewrite Hd].
  unfold byte_of, u8. by rewrite Z.mod_mod.
Qed.

(** ** The short hash *)

Lemma bind_total {A B : Type} (m : option A) (f : A → option B) :
  is_Some m → (∀ a, is_Some (f a)) → is_Some (m ≫= f).
Proof. intros [a ->] Hf. apply Hf. Qed.

Lemma short_blocks_total (n : nat) (mem : list byte) (u : nat) (v : vars4) :
  is_Some (short_blocks n mem u v).
Proof.
  revert u v. induction n as [|n IH]; intros u v; cbn [short_blocks]; [eauto |].
  destruct_vars v. cbn beta iota zeta.
  apply bind_total; [apply short_mix_total |].
  intros w. destruct_vars w. apply IH.
Qed.

Lemma short_chunks_total (message : list byte) (length hash1 hash2 : Z) :
  is_Some (short_chunks message length hash1 hash2).
Proof.
  unfold short_chunks.
  destruct (15 <? length); [| eauto].
  apply bind_total; [apply short_blocks_total |].
  intros [u w]. destruct_vars w. cbn beta iota zeta.
  destruct (16 <=? length `mod` 32); [| eauto].
  apply bind_total; [apply short_mix_total |].
  intros w'. destruct_vars w'. eauto.
Qed.

Lemma spooky_shorthash_total (message : list byte) (length hash1 hash2 : Z) :
  is_Some (spooky_shorthash message length hash1 hash2).
Proof.
  unfold spooky_shorthash.
  apply bind_total; [apply short_chunks_total |].
  intros [[u r] w]. destruct_vars w. cbn beta iota zeta.
  destruct (short_tail message u length r _ _) as [c d].
  apply bind_total; [apply short_end_total |].
  intros w'. destruct_vars w'. eauto.
Qed.

(** Below 16 bytes no chunk is processed: [c] and [d] are still zero in
    front of the tail step. *)
Lemma short_chunks_small (message : list byte) (length hash1 hash2 : Z) :
  0 <= length < 16 →
  short_chunks message length hash1 hash2
  = Some (0%nat, length, (hash1, hash2, 0, 0)).
Proof.
  intros H. unfold short_chunks.
  destruct (15 <? length) eqn:E; [apply Z.ltb_lt in E; lia |].
  by rewrite Z.mod_small by lia.
Qed.

Lemma add64_0_shl64 (x k : Z) : add64 0 (shl64 x k) = shl64 x k.
Proof.
  unfold add64, shl64. rewrite Z.add_0_l. apply Z.mod_mod. by compute.
Qed.

(** C3 (as the code has it): in [spooky_shorthash], for every message
    and every length, the tail step starts from
    [d = (length << 56) mod 2^64]: line 234 assigns, so the [d] the
    32-byte and 16-byte chunks have left is not used again, and the hash
    is [short_end] of the [a], [b], [c] of the chunks and of the tail
    bytes accumulated on top of [length << 56].  When fewer than 16
    bytes are hashed the chunks leave [d = 0], and assigning and adding
    coincide. *)
Theorem shorthash_tail_assigns_d :
  (∀ message length hash1 hash2,
     ∃ u remainder a b c d,
       short_chunks message length hash1 hash2
       = Some (u, remainder, (a, b, c, d))
       ∧ spooky_shorthash message length hash1 hash2
         = (let '(c', d') :=
              short_switch message u remainder c (shl64 length 56) in
            '(a, b, c, d) ← short_end (a, b, c', d');
            Some (a, b)))
  ∧ (∀ message length hash1 hash2,
       0 <= length < 16 →
       ∃ u remainder a b c d,
         short_chunks message length hash1 hash2 = Some (u, remainder, (a, b, c, d))
         ∧ d = 0
         ∧ short_tail message u length remainder c d
           = short_switch message u remainder c (add64 d (shl64 length 56))
         ∧ spooky_shorthash message length hash1 hash2
           = shorthash_adding message length hash1 hash2).
Proof.
  split.
  - intros message length hash1 hash2.
    destruct (short_chunks_total message length hash1 hash2)
      as [[[u remainder] w] E].
    destruct_vars w. eexists _, _, _, _, _, _. split; [exact E |].
    unfold spooky_shorthash. rewrite E. reflexivity.
  - intros message length hash1 hash2 H.
    exists 0%nat, length, hash1, hash2, 0, 0.
    split; [by apply short_chunks_small |]. split; [done |].
    split.
    + unfold short_tail. by rewrite add64_0_shl64.
    + unfold spooky_shorthash, shorthash_adding.
      rewrite short_chunks_small by done. simpl.
      unfold short_tail, short_tail_adding. by rewrite add64_0_shl64.
Qed.

Lemma shorthash_tail_assigns_d_witness :
  (∃ u remainder a b c d,
     short_chunks (count_bytes 50) 50 1 2 = Some (u, remainder, (a, b, c, d))
     ∧ d ≠ 0
     ∧ spooky_shorthash (count_bytes 50) 50 1 2
       = (let '(c', d') :=
            short_switch (count_bytes 50) u remainder c (shl64 50 56) in
          '(a, b, c, d) ← short_end (a, b, c', d');
          Some (a, b)))
  ∧ 0 <= 3 < 16
  ∧ ∃ u remainder a b c d,
      short_chunks [x01; x02; x03] 3 5 7 = Some (u, remainder, (a, b, c, d))
      ∧ d = 0
      ∧ short_tail [x01; x02; x03] u 3 remainder c d
        = short_switch [x01; x02; x03] u remainder c (add64 d (shl64 3 56))
      ∧ spooky_shorthash [x01; x02; x03] 3 5 7
        = shorthash_adding [x01; x02; x03] 3 5 7.
Proof.
  split.
  - destruct (proj1 shorthash_tail_assigns_d (count_bytes 50) 50 1 2)
      as (u & remainder & a & b & c & d & E & H).
    exists u, remainder, a, b, c, d.
    split; [exact E |]. split; [| exact H].
    pose proof E as E'. vm_compute in E'.
    injection E' as _ _ _ _ _ <-. discriminate.
  - split; [lia |].
    apply (proj2 shorthash_tail_assigns_d [x01; x02; x03] 3 5 7). lia.
Defined.

(** C3 (as stated) fails: after one 16-byte chunk [d] is not zero, and
    the tail step does not start from [d + (length << 56)]; the hash
    differs from the one an adding tail step would give. *)
Lemma short_tail_does_not_add :
  let message := replicate 16 x01 in
  ∃ u remainder a b c d,
    short_chunks message 16 0 0 = Some (u, remainder, (a, b, c, d))
    ∧ short_tail message u 16 remainder c d
      ≠ short_switch message u remainder c (add64 d (shl64 16 56))
    ∧ spooky_shorthash message 16 0 0 ≠ shorthash_adding message 16 0 0.
Proof.
  eexists _, _, _, _, _, _. split; [vm_compute; reflexivity |].
  split; vm_compute; discriminate.
Qed.

(** ** The one-shot hash *)

Lemma mix_blocks_total (n : nat) (mem : list byte) (u : nat) (v : vars12) :
  is_Some (mix_blocks n mem u v).
Proof.
  revert u v. induction n as [|n IH]; intros u v; cbn [mix_blocks]; [eauto |].
  apply bind_total; [apply mix_total | intros w; apply IH].
Qed.

Lemma spooky_hash128_total (message : list byte) (length hash1 hash2 : Z) :
  is_Some (spooky_hash128 message length hash1 hash2).
Proof.
  unfold spooky_hash128.
  destruct (length <? SC_BLOCKSIZE); [apply spooky_shorthash_total |].
  cbn zeta.
  apply bind_total; [apply mix_blocks_total |]. intros v.
  apply bind_total; [apply mix_total |]. intros v'.
  apply bind_total; [apply End_total |]. intros w.
  destruct_vars w. eauto.
Qed.

(** C6: below 96 bytes [spooky_hash128] is the short hash with the seeds
    passed through; otherwise it seeds the twelve variables with
    [seed1, seed2, SC_CONST] four times over, mixes every complete block in
    message order, mixes the zero-padded leftover whose last byte is the
    length modulo 256, runs [end] and returns [(h0, h1)]; it returns for
    every message. *)
Theorem hash128_structure (message : list byte) (seed1 seed2 : Z) :
  spooky_hash128 message (len message) seed1 seed2
  = Spec128.hash128 message seed1 seed2
  ∧ is_Some (spooky_hash128 message (len message) seed1 seed2).
Proof.
  split; [| apply spooky_hash128_total].
  unfold spooky_hash128, Spec128.hash128.
  change SC_BLOCKSIZE with 96.
  destruct (len message <? 96) eqn:Hshort; [done |].
  apply Z.ltb_ge in Hshort. unfold len in *.
  set (n := (length message / 96)%nat).
  assert (Hn : Z.to_nat (Z.of_nat (length message) / 96) = n).
  { unfold n. rewrite <- (Nat2Z.id (length message / 96)).
    f_equal. by rewrite Nat2Z.inj_div. }
  rewrite Hn. cbn zeta.
  rewrite mix_blocks_each, drop_0. unfold seed_vars.
  change SC_CONST with 0xdeadbeefdeadbeef.
  destruct (Spec128.mix_each _ _) as [v |]; simpl; [| done].
  pose proof (Nat.div_mod_eq (length message) 96) as Hdm.
  pose proof (Nat.mod_upper_bound (length message) 96) as Hub.
  fold n in Hdm.
  set (r := (length message mod 96)%nat) in *.
  replace (Z.to_nat (Z.of_nat (length message) - Z.of_nat (n * 96))) with r by lia.
  replace (Z.to_nat (96 - (Z.of_nat (length message) - Z.of_nat (n * 96))))
    with (96 - r)%nat by lia.
  rewrite final_block_built by (done || lia).
  unfold Spec128.block_words.
  destruct (mix _ v) as [v' |]; simpl; [| done].
  destruct (End v') as [w |]; simpl; [| done].
  by destruct_vars w.
Qed.

(** C9: [spooky_hash64] is the first word of [spooky_hash128] run with
    both seed words equal to the seed, and it always returns. *)
Theorem hash64_first_word (message : list byte) (length seed : Z) :
  spooky_hash64 message length seed
  = fst <$> spooky_hash128 message length seed seed
  ∧ is_Some (spooky_hash64 message length seed).
Proof.
  split.
  - unfold spooky_hash64.
    destruct (spooky_hash128 message length seed seed) as [[h1 h2] |]; done.
  - unfold spooky_hash64.
    apply bind_total; [apply spooky_hash128_total |].
    intros [h1 h2]. eauto.
Qed.

(** ** The streaming interface *)

Lemma u8_small (z : Z) : 0 <= z < 256 → u8 z = z.
Proof. intros H. unfold u8. by apply Z.mod_small. Qed.

Lemma size_wrap_small (z : Z) : 0 <= z < 2 ^ 64 → size_wrap z = z.
Proof. intros H. unfold size_wrap. by apply Z.mod_small. Qed.

Lemma len_nonneg (message : list byte) : 0 <= len message.
Proof. unfold len. lia. Qed.

Lemma bytes_at_all (message : list byte) :
  bytes_at message 0 (Z.to_nat (len message)) = message.
Proof.
  unfold bytes_at, len. rewrite drop_0, Nat2Z.id. by apply take_ge.
Qed.

Lemma bytes_at_rest (message : list byte) (u n : nat) :
  (u + n = length message)%nat → bytes_at message u n = drop u message.
Proof.
  intros H. unfold bytes_at. apply take_ge. rewrite length_drop. lia.
Qed.

Lemma length_bytes_at (message : list byte) (u n : nat) :
  (u + n ≤ length message)%nat → length (bytes_at message u n) = n.
Proof.
  intros H. unfold bytes_at. rewrite length_take, length_drop. lia.
Qed.

Lemma memcpy_whole (dst src : list byte) :
  length src = length dst → memcpy dst 0 src = src.
Proof.
  intros H. rewrite memcpy_to_end by (simpl; lia). by rewrite take_0.
Qed.

Lemma words_bytes_at (mem : list byte) (u : nat) :
  words (bytes_at mem u 96) 0 = words mem u.
Proof. symmetry. apply words_block. Qed.

(** The copying loop mixes the same blocks as the direct one and leaves
    the last block in the buffer. *)
Lemma mix_blocks_copied_direct (n : nat) (mem : list byte) (u : nat)
  (data : list byte) (v : vars12) :
  (u + n * 96 ≤ length mem)%nat → length data = 96%nat →
  mix_blocks_copied n mem u data v
  = (v' ← mix_blocks n mem u v;
     Some (if (n =? 0)%nat then data else bytes_at mem (u + (n - 1) * 96) 96, v')).
Proof.
  revert u data v. induction n as [|n IH]; intros u data v Hu Hd; [done |].
  cbn [mix_blocks_copied mix_blocks].
  rewrite memcpy_whole by (rewrite length_bytes_at; lia).
  rewrite words_bytes_at.
  destruct (mix (words mem u) v) as [v1 |]; [| done].
  cbn [mbind option_bind].
  rewrite IH by (rewrite ?length_bytes_at; lia).
  destruct (mix_blocks n mem (u + 96) v1) as [v2 |]; [| done].
  cbn [mbind option_bind]. f_equal. f_equal.
  destruct n as [|n]; simpl; [f_equal; lia |].
  f_equal. lia.
Qed.

Lemma update_blocks_normal (state : spooky_state) (direct : bool)
  (message : list byte) (u : nat) (n : Z) (v : vars12) :
  length (m_data state) = 96%nat → 0 <= n →
  (u + Z.to_nat n = length message)%nat →
  let k := Z.to_nat (n / 96) in
  update_blocks state direct message u n v
  = (v' ← mix_blocks k message u v;
     let data :=
       if direct || (k =? 0)%nat then m_data state
       else bytes_at message (u + (k - 1) * 96) 96 in
     Some (if 0 <? n mod 96
           then State (memcpy data 0 (drop (u + k * 96) message)) v'
                  (m_length state) (n mod 96)
           else State data v' (m_length state) (m_remainder state))).
Proof.
  intros Hd Hn Hu k. unfold update_blocks. change SC_BLOCKSIZE with 96.
  fold k.
  pose proof (Z.div_mod n 96 ltac:(lia)) as Hdm.
  pose proof (Z.mod_pos_bound n 96 ltac:(lia)) as Hr.
  assert (Hk : Z.of_nat k = n / 96) by (unfold k; rewrite Z2Nat.id; [done | apply Z.div_pos; lia]).
  replace (n - (Z.of_nat (u + k * 96) - Z.of_nat u)) with (n mod 96) by lia.
  rewrite u8_small by lia.
  rewrite (bytes_at_rest message (u + k * 96)) by lia.
  destruct direct.
  - destruct (mix_blocks k message u v) as [v' |]; [| done].
    cbn [mbind option_bind orb].
    by destruct (0 <? n mod 96).
  - rewrite mix_blocks_copied_direct by lia.
    destruct (mix_blocks k message u v) as [v' |]; [| done].
    cbn [mbind option_bind orb].
    by destruct (0 <? n mod 96).
Qed.

Lemma update_short (state : spooky_state) (direct : bool) (message : list byte) :
  well_formed state → len message + m_remainder state < 96 →
  spooky_update state direct message (len message)
  = Some (State (memcpy (m_data state) (Z.to_nat (m_remainder state)) message)
            (m_state state) (size_wrap (len message + m_length state))
            (len message + m_remainder state)).
Proof.
  intros [Hd Hr] Hshort. pose proof (len_nonneg message) as Hn.
  unfold spooky_update. change SC_BLOCKSIZE with 96.
  rewrite size_wrap_small by lia.
  destruct (len message + m_remainder state <? 96) eqn:E;
    [| apply Z.ltb_ge in E; lia].
  rewrite bytes_at_all, u8_small by lia. done.
Qed.

Lemma update_long (state : spooky_state) (direct : bool) (message : list byte) :
  well_formed state →
  96 <= len message + m_remainder state → len message + 96 <= 2 ^ 64 →
  let v :=
    if m_length state <? 96
    then seed_vars (m_state_0 state) (m_state_1 state)
    else m_state state in
  let total := size_wrap (len message + m_length state) in
  let r := Z.to_nat (m_remainder state) in
  let data := buffered state ++ take (96 - r) message in
  spooky_update state direct message (len message)
  = if m_remainder state =? 0
    then update_blocks (set_m_length state total) direct message 0
           (len message) v
    else v ← mix (words data 0) v;
         update_blocks (set_m_data (set_m_length state total) data) direct
           message (96 - r) (len message - (96 - m_remainder state)) v.
Proof.
  intros [Hd Hr] Hlong Hfit v total r data.
  pose proof (len_nonneg message) as Hn.
  unfold spooky_update. change SC_BLOCKSIZE with 96.
  rewrite size_wrap_small by lia.
  destruct (len message + m_remainder state <? 96) eqn:E;
    [apply Z.ltb_lt in E; lia |].
  fold v total. cbn [m_remainder set_m_length set_m_data m_data].
  destruct (m_remainder state =? 0) eqn:E0; cbn [negb]; [done |].
  apply Z.eqb_neq in E0.
  rewrite u8_small by lia.
  replace (Z.to_nat (96 - m_remainder state)) with (96 - r)%nat by lia.
  assert (Hb : bytes_at message 0 (96 - r) = take (96 - r) message)
    by (unfold bytes_at; by rewrite drop_0).
  rewrite Hb.
  rewrite memcpy_to_end by (rewrite length_take; unfold len in *; lia).
  fold r. change (take r (m_data state)) with (buffered state). fold data.
  destruct (mix (words data 0) v) as [v1 |]; [| done].
  cbn [mbind option_bind].
  by rewrite size_wrap_small by lia.
Qed.

Lemma length_buffered (state : spooky_state) :
  well_formed state → length (buffered state) = Z.to_nat (m_remainder state).
Proof.
  intros [Hd Hr]. unfold buffered. rewrite length_take. lia.
Qed.

(** What [update_blocks] leaves behind, for a well-formed state and a
    fragment that holds the [n] bytes it is told to read. *)
Lemma update_blocks_result (state : spooky_state) (direct : bool)
  (message : list byte) (u : nat) (n : Z) (v : vars12) :
  well_formed state → 0 <= n → (u + Z.to_nat n = length message)%nat →
  ∃ state',
    update_blocks state direct message u n v = Some state'
    ∧ well_formed state'
    ∧ m_length state' = m_length state
    ∧ m_remainder state' = (if 0 <? n mod 96 then n mod 96 else m_remainder state)
    ∧ (0 < n mod 96 → buffered state' = drop (length message - Z.to_nat (n mod 96)) message)
    ∧ (n mod 96 = 0 → direct = true ∨ n < 96 → m_data state' = m_data state).
Proof.
  intros [Hd Hr] Hn Hu.
  rewrite update_blocks_normal by done.
  destruct (mix_blocks_total (Z.to_nat (n / 96)) message u v) as [v' ->].
  cbn [mbind option_bind].
  pose proof (Z.div_mod n 96 ltac:(lia)) as Hdm.
  pose proof (Z.mod_pos_bound n 96 ltac:(lia)) as Hb.
  set (k := Z.to_nat (n / 96)) in *.
  assert (Hk : Z.of_nat k = n / 96)
    by (unfold k; rewrite Z2Nat.id; [done | apply Z.div_pos; lia]).
  set (data := if direct || (k =? 0)%nat then _ else _).
  assert (Hdata : length data = 96%nat).
  { unfold data. destruct (direct || (k =? 0)%nat) eqn:E; [done |].
    apply orb_false_iff in E as [_ E]. apply Nat.eqb_neq in E.
    apply length_bytes_at. lia. }
  assert (Hrest : length (drop (u + k * 96) message) = Z.to_nat (n mod 96))
    by (rewrite length_drop; lia).
  eexists. split; [reflexivity |].
  destruct (0 <? n mod 96) eqn:E.
  - apply Z.ltb_lt in E.
    split; [split; cbn; [rewrite length_memcpy; lia | lia] |].
    split; [done |]. split; [done |].
    split; [| lia].
    intros _. unfold buffered. cbn.
    pose proof (take_memcpy data (drop (u + k * 96) message) 0) as Ht.
    simpl in Ht. rewrite Hrest in Ht. rewrite Ht by lia.
    f_equal. lia.
  - apply Z.ltb_ge in E.
    split; [split; cbn; [done | lia] |].
    split; [done |]. split; [done |].
    split; [lia |].
    intros _ Hcase. cbn. unfold data.
    destruct Hcase as [-> | Hsmall]; [done |].
    replace k with 0%nat by (rewrite Z.div_small in Hk; lia).
    by rewrite orb_true_r.
Qed.

(** [spooky_update] always returns on a well-formed state, and the state
    it returns is well formed. *)
Lemma spooky_update_well_formed (state : spooky_state) (direct : bool)
  (message : list byte) :
  well_formed state → len message + 96 <= 2 ^ 64 →
  ∃ state',
    spooky_update state direct message (len message) = Some state'
    ∧ well_formed state'
    ∧ m_length state' = size_wrap (len message + m_length state).
Proof.
  intros Hwf Hfit. pose proof Hwf as [Hd Hr].
  pose proof (len_nonneg message) as Hn.
  destruct (Z.lt_ge_cases (len message + m_remainder state) 96) as [Hs | Hl].
  - rewrite update_short by done. eexists. split; [reflexivity |].
    split; [| done]. split; cbn; [| lia].
    rewrite length_memcpy; unfold len in *; lia.
  - rewrite update_long by done.
    destruct (m_remainder state =? 0) eqn:E0.
    + edestruct (update_blocks_result
        (set_m_length state (size_wrap (len message + m_length state)))
        direct message 0 (len message)) as (st' & -> & Hwf' & HL & _);
        [done | lia | unfold len; lia |].
      eauto.
    + apply Z.eqb_neq in E0.
      match goal with
      | |- context [mix ?d ?v] => destruct (mix_total d v) as [v1 ->]
      end.
      cbn [mbind option_bind].
      edestruct (update_blocks_result
        (set_m_data (set_m_length state (size_wrap (len message + m_length state)))
           (buffered state ++ take (96 - Z.to_nat (m_remainder state)) message))
        direct message (96 - Z.to_nat (m_remainder state))
        (len message - (96 - m_remainder state)) v1)
        as (st' & -> & Hwf' & HL & _).
      * split; cbn; [| done].
        rewrite length_app, length_buffered, length_take by done.
        unfold len in *. lia.
      * lia.
      * unfold len in *. lia.
      * eauto.
Qed.

Lemma update_blocks_same_logical (s t : spooky_state) (direct : bool)
  (message : list byte) (u : nat) (n : Z) (v : vars12) :
  well_formed s → well_formed t →
  m_length s = m_length t → m_remainder s = m_remainder t →
  (m_remainder s ≠ 0 → m_data s = m_data t) →
  0 <= n → (u + Z.to_nat n = length message)%nat →
  ∃ s' t',
    update_blocks s direct message u n v = Some s'
    ∧ update_blocks t direct message u n v = Some t'
    ∧ same_logical s' t'.
Proof.
  intros [Hds Hrs] [Hdt Hrt] HL HR Hdata Hn Hu.
  rewrite !update_blocks_normal by done.
  destruct (mix_blocks_total (Z.to_nat (n / 96)) message u v) as [v' ->].
  cbn [mbind option_bind].
  pose proof (Z.div_mod n 96 ltac:(lia)) as Hdm.
  pose proof (Z.mod_pos_bound n 96 ltac:(lia)) as Hb.
  set (k := Z.to_nat (n / 96)) in *.
  assert (Hk : Z.of_nat k = n / 96)
    by (unfold k; rewrite Z2Nat.id; [done | apply Z.div_pos; lia]).
  set (rest := drop (u + k * 96) message).
  assert (Hrest : length rest = Z.to_nat (n mod 96))
    by (unfold rest; rewrite length_drop; lia).
  eexists _, _. split; [reflexivity |]. split; [reflexivity |].
  destruct (0 <? n mod 96) eqn:E.
  - repeat split; cbn; try done.
    unfold buffered. cbn.
    assert (Ht : ∀ data : list byte,
      length data = 96%nat → take (Z.to_nat (n mod 96)) (memcpy data 0 rest) = rest).
    { intros data Hlen.
      pose proof (take_memcpy data rest 0) as Ht.
      simpl in Ht. rewrite Hrest in Ht. apply Ht. lia. }
    rewrite !Ht; [done | |];
      (destruct (direct || (k =? 0)%nat) eqn:Ek; [done |];
       apply orb_false_iff in Ek as [_ Ek]; apply Nat.eqb_neq in Ek;
       apply length_bytes_at; lia).
  - repeat split; cbn; try done.
    unfold buffered. cbn. rewrite <- HR.
    destruct (Z.eq_dec (m_remainder s) 0) as [-> | Hne]; [done |].
    by rewrite (Hdata Hne).
Qed.

Lemma m_state_01 (s t : spooky_state) :
  m_state s = m_state t → m_state_0 s = m_state_0 t ∧ m_state_1 s = m_state_1 t.
Proof. unfold m_state_0, m_state_1. by intros ->. Qed.

(** [spooky_update] takes states with the same logical content to states
    with the same logical content. *)
Lemma spooky_update_same_logical (s t : spooky_state) (direct : bool)
  (message : list byte) :
  well_formed s → well_formed t → same_logical s t →
  len message + 96 <= 2 ^ 64 →
  ∃ s' t',
    spooky_update s direct message (len message) = Some s'
    ∧ spooky_update t direct message (len message) = Some t'
    ∧ well_formed s' ∧ well_formed t' ∧ same_logical s' t'
    ∧ m_length s' = size_wrap (len message + m_length s).
Proof.
  intros Hs Ht (HS & HL & HR & HB) Hfit.
  destruct (spooky_update_well_formed s direct message Hs Hfit)
    as (s' & Es & Hs' & HLs).
  destruct (spooky_update_well_formed t direct message Ht Hfit)
    as (t' & Et & Ht' & HLt).
  exists s', t'. repeat (split; [done |]). split; [| done].
  pose proof Hs as [Hds Hrs]. pose proof Ht as [Hdt Hrt].
  pose proof (len_nonneg message) as Hn.
  destruct (m_state_01 s t HS) as [H0 H1].
  destruct (Z.lt_ge_cases (len message + m_remainder s) 96) as [Hshort | Hlong].
  - rewrite update_short in Es by done.
    rewrite update_short in Et by (rewrite <- ?HR; done).
    injection Es as <-. injection Et as <-.
    repeat split; cbn; try congruence.
    unfold buffered. cbn. rewrite <- HR.
    replace (Z.to_nat (len message + m_remainder s))
      with (Z.to_nat (m_remainder s) + length message)%nat
      by (unfold len; lia).
    rewrite !take_memcpy by lia.
    unfold buffered in HB. rewrite <- HR in HB. by rewrite HB.
  - rewrite update_long in Es by done.
    rewrite update_long in Et by (rewrite <- ?HR; done).
    rewrite <- HL, <- HR, <- HS, <- H0, <- H1, <- HB in Et.
    destruct (m_remainder s =? 0) eqn:E0.
    + apply Z.eqb_eq in E0.
      match type of Es with
      | update_blocks ?s1 _ _ _ _ ?v = _ =>
          match type of Et with
          | update_blocks ?t1 _ _ _ _ _ = _ =>
              destruct (update_blocks_same_logical s1 t1 direct message 0
                          (len message) v)
                as (s2 & t2 & Es2 & Et2 & Hsame)
          end
      end; try done.
      * unfold len. lia.
      * rewrite Es in Es2. rewrite Et in Et2.
        injection Es2 as <-. injection Et2 as <-. done.
    + apply Z.eqb_neq in E0.
      match type of Es with
      | context [mix ?d ?v] => destruct (mix d v) as [v1 |]; [| done]
      end.
      cbn [mbind option_bind] in Es, Et.
      assert (Hlen : length
        (buffered s ++ take (96 - Z.to_nat (m_remainder s)) message) = 96%nat).
      { rewrite length_app, length_buffered, length_take by done.
        unfold len in *. lia. }
      match type of Es with
      | update_blocks ?s1 _ _ ?u ?n ?v = _ =>
          match type of Et with
          | update_blocks ?t1 _ _ _ _ _ = _ =>
              destruct (update_blocks_same_logical s1 t1 direct message u n v)
                as (s2 & t2 & Es2 & Et2 & Hsame)
          end
      end; try done.
      all: try (split; [done | cbn; lia]).
      all: try (unfold len in *; lia).
      rewrite Es in Es2. rewrite Et in Et2.
      injection Es2 as <-. injection Et2 as <-. done.
Qed.

(** On the long path [spooky_final] pads the buffer in place, mixes it,
    and returns the state with the padded buffer. *)
Lemma spooky_final_long (state : spooky_state) (hash1 hash2 : Z) :
  well_formed state → 96 <= m_length state →
  spooky_final state hash1 hash2
  = (v ← mix (words (padded state) 0) (m_state state);
     '(h0, h1, _, _, _, _, _, _, _, _, _, _) ← End v;
     Some (set_m_data state (padded state), (h0, h1))).
Proof.
  intros [Hd Hr] HL. unfold spooky_final. change SC_BLOCKSIZE with 96.
  destruct (m_length state <? 96) eqn:E; [apply Z.ltb_lt in E; lia |].
  cbn [set_m_data m_data m_length m_state m_remainder].
  rewrite !u8_small by (rewrite ?u8_small; lia).
  rewrite memset_to_end by lia.
  replace (Z.to_nat (96 - m_remainder state))
    with (96 - Z.to_nat (m_remainder state))%nat by lia.
  fold (buffered state). fold (padded state).
  destruct (mix (words (padded state) 0) (m_state state)) as [v |]; [| done].
  cbn [mbind option_bind].
  destruct (End v) as [w |]; [| done].
  cbn [mbind option_bind]. by destruct_vars w.
Qed.

Lemma length_padded (state : spooky_state) :
  well_formed state → length (padded state) = 96%nat.
Proof.
  intros Hwf. pose proof Hwf as [Hd Hr]. unfold padded.
  rewrite length_insert, length_app, length_buffered, length_replicate by done.
  lia.
Qed.

Lemma take_padded (state : spooky_state) :
  well_formed state →
  take (Z.to_nat (m_remainder state)) (padded state) = buffered state.
Proof.
  intros Hwf. pose proof Hwf as [Hd Hr]. unfold padded.
  rewrite take_insert_ge by lia.
  apply take_app_length'. by rewrite length_buffered.
Qed.

Lemma padded_same_logical (s t : spooky_state) :
  same_logical s t → padded s = padded t.
Proof. intros (HS & HL & HR & HB). unfold padded. by rewrite HL, HR, HB. Qed.

(** [spooky_final] on the long path, for two states with the same logical
    content: the same words, and the same state afterwards. *)
Lemma spooky_final_same_logical (s t : spooky_state) (hash1 hash2 : Z) :
  well_formed s → well_formed t → same_logical s t → 96 <= m_length s →
  ∃ s' t' out,
    spooky_final s hash1 hash2 = Some (s', out)
    ∧ spooky_final t hash1 hash2 = Some (t', out)
    ∧ well_formed s' ∧ well_formed t' ∧ same_logical s' t'
    ∧ m_length s' = m_length s.
Proof.
  intros Hs Ht Hsame HLs. pose proof Hsame as (HS & HL & HR & HB).
  rewrite !spooky_final_long by (rewrite <- ?HL; done).
  rewrite <- (padded_same_logical s t Hsame), <- HS.
  destruct (mix_total (words (padded s) 0) (m_state s)) as [v ->].
  cbn [mbind option_bind].
  destruct (End_total v) as [w ->].
  cbn [mbind option_bind]. destruct_vars w.
  eexists _, _, _. split; [reflexivity |]. split; [reflexivity |].
  pose proof Hs as [Hds Hrs]. pose proof Ht as [Hdt Hrt].
  split; [split; cbn; [by apply length_padded | done] |].
  split; [split; cbn; [by apply length_padded | done] |].
  split; [| done].
  repeat split; cbn; try done.
  unfold buffered. cbn. by rewrite <- HR.
Qed.

(** Sessions that start from states with the same logical content, at
    least one block in, return the same words. *)
Lemma session_same_logical (calls : list call) (s t : spooky_state) :
  well_formed s → well_formed t → same_logical s t →
  96 <= m_length s → m_length s + appended calls + 96 <= 2 ^ 64 →
  session s calls = session t calls ∧ is_Some (session s calls).
Proof.
  revert s t. induction calls as [| [direct message | hash1 hash2] calls IH];
    intros s t Hs Ht Hsame HL Hfit; cbn [session appended] in *.
  - eauto.
  - pose proof (len_nonneg message) as Hn.
    assert (Happ : 0 <= appended calls).
    { clear. induction calls as [| [? m | ? ?] ? ?]; cbn; [lia | | done].
      pose proof (len_nonneg m). lia. }
    destruct (spooky_update_same_logical s t direct message)
      as (s' & t' & -> & -> & Hs' & Ht' & Hsame' & HL'); [done .. | lia |].
    cbn [mbind option_bind].
    rewrite size_wrap_small in HL' by lia.
    apply IH; [done .. | lia | lia].
  - destruct (spooky_final_same_logical s t hash1 hash2)
      as (s' & t' & out & -> & -> & Hs' & Ht' & Hsame' & HL'); [done .. |].
    cbn [mbind option_bind].
    destruct (IH s' t') as [-> [outs ->]]; [done .. | lia | lia |].
    cbn [mbind option_bind]. eauto.
Qed.

(** C8: on a state with [m_length >= 96], [spooky_final] returns, and the
    only bytes of the state it changes are [m_data[m_remainder .. 96)]:
    [m_state], [m_length], [m_remainder] and [m_data[0 .. m_remainder)]
    are as before.  Every later sequence of [spooky_update] and
    [spooky_final] calls returns the same words from the state after the
    call as from the state before it. *)
Theorem final_touches_only_padding (state : spooky_state) (hash1 hash2 : Z) :
  well_formed state → SC_BLOCKSIZE <= m_length state →
  ∃ state' out,
    spooky_final state hash1 hash2 = Some (state', out)
    ∧ m_state state' = m_state state
    ∧ m_length state' = m_length state
    ∧ m_remainder state' = m_remainder state
    ∧ length (m_data state') = length (m_data state)
    ∧ take (Z.to_nat (m_remainder state)) (m_data state')
      = take (Z.to_nat (m_remainder state)) (m_data state)
    ∧ (∀ calls,
         m_length state + appended calls + 96 <= 2 ^ 64 →
         session state' calls = session state calls
         ∧ is_Some (session state calls)).
Proof.
  intros Hwf HL. change SC_BLOCKSIZE with 96 in HL.
  pose proof Hwf as [Hd Hr].
  rewrite spooky_final_long by done.
  destruct (mix_total (words (padded state) 0) (m_state state)) as [v ->].
  cbn [mbind option_bind].
  destruct (End_total v) as [w ->].
  cbn [mbind option_bind]. destruct_vars w.
  eexists _, _. split; [reflexivity |]. cbn.
  repeat (split; [done |]).
  split; [by rewrite length_padded |].
  split; [by apply take_padded |].
  intros calls Hfit.
  assert (Hsame : same_logical (set_m_data state (padded state)) state).
  { repeat split; try done. unfold buffered. cbn. by apply take_padded. }
  assert (Hwf' : well_formed (set_m_data state (padded state)))
    by (split; cbn; [by apply length_padded | done]).
  destruct (session_same_logical calls _ _ Hwf' Hwf Hsame) as [E HS]; [done .. |].
  split; [done |]. by rewrite <- E.
Qed.

Lemma final_touches_only_padding_witness :
  well_formed long_state ∧ SC_BLOCKSIZE <= m_length long_state
  ∧ ∃ state' out,
      spooky_final long_state 0 0 = Some (state', out)
      ∧ m_remainder state' = 8
      ∧ take 8 (m_data state') = drop 192 long_message
      ∧ session state' [Update true [x01; x02]; Final 0 0]
        = session long_state [Update true [x01; x02]; Final 0 0].
Proof.
  assert (Hwf : well_formed long_state) by (split; [reflexivity | by vm_compute]).
  assert (HL : SC_BLOCKSIZE <= m_length long_state) by (by vm_compute).
  split; [exact Hwf |]. split; [exact HL |].
  destruct (final_touches_only_padding long_state 0 0 Hwf HL)
    as (state' & out & E & _ & _ & HR & _ & HT & Hcalls).
  exists state', out. split; [exact E |].
  split; [rewrite HR; reflexivity |].
  split; [exact HT |].
  apply Hcalls. by vm_compute.
Defined.

(** C4 (as the code has it): [spooky_final] returns and leaves [m_state],
    [m_length], [m_remainder] and [m_data[0 .. m_remainder)] unchanged.
    Below 96 bytes the whole state is unchanged.  From 96 bytes on the
    zero padding and the length byte are written into [m_data] itself,
    which afterwards holds the held-back bytes, zeros, and the low byte
    of [m_length] at index 95. *)
Theorem final_preserves_logical_state (state : spooky_state) (hash1 hash2 : Z) :
  well_formed state →
  ∃ state' out,
    spooky_final state hash1 hash2 = Some (state', out)
    ∧ m_state state' = m_state state
    ∧ m_length state' = m_length state
    ∧ m_remainder state' = m_remainder state
    ∧ take (Z.to_nat (m_remainder state)) (m_data state')
      = take (Z.to_nat (m_remainder state)) (m_data state)
    ∧ (m_length state < SC_BLOCKSIZE → state' = state)
    ∧ (SC_BLOCKSIZE <= m_length state →
       m_data state'
       = <[95%nat := byte_of (m_length state)]>
           (take (Z.to_nat (m_remainder state)) (m_data state)
            ++ replicate (96 - Z.to_nat (m_remainder state)) x00)).
Proof.
  intros Hwf. change SC_BLOCKSIZE with 96.
  destruct (Z.lt_ge_cases (m_length state) 96) as [Hshort | Hlong].
  - unfold spooky_final. change SC_BLOCKSIZE with 96.
    destruct (m_length state <? 96) eqn:E; [| apply Z.ltb_ge in E; lia].
    destruct (spooky_shorthash_total (m_data state) (m_length state) hash1 hash2)
      as [[h1 h2] ->].
    cbn [mbind option_bind].
    eexists _, _. split; [reflexivity |].
    repeat (split; [done |]). intros; lia.
  - rewrite spooky_final_long by done.
    destruct (mix_total (words (padded state) 0) (m_state state)) as [v ->].
    cbn [mbind option_bind].
    destruct (End_total v) as [w ->].
    cbn [mbind option_bind]. destruct_vars w.
    eexists _, _. split; [reflexivity |]. cbn.
    repeat (split; [done |]).
    split; [by apply take_padded |].
    split; [lia | done].
Qed.

Lemma final_preserves_logical_state_witness :
  well_formed long_state
  ∧ ∃ state' out,
      spooky_final long_state 0 0 = Some (state', out)
      ∧ m_length state' = 200
      ∧ m_data state'
        = drop 192 long_message ++ replicate 87 x00 ++ [byte_of 200].
Proof.
  assert (Hwf : well_formed long_state) by (split; [reflexivity | by vm_compute]).
  split; [exact Hwf |].
  destruct (final_preserves_logical_state long_state 0 0 Hwf)
    as (state' & out & E & _ & HL & _ & _ & _ & HD).
  exists state', out. split; [exact E |].
  split; [rewrite HL; reflexivity |].
  rewrite HD by (by vm_compute). reflexivity.
Defined.

(** C4 (as stated) fails: after 200 bytes fed as 50 + 150, [spooky_final]
    changes bytes 8 .. 95 of [m_data]. *)
Lemma final_writes_into_buffer :
  ∃ state' out,
    spooky_updates (spooky_init blank_state 1 2) long_fragments = Some long_state
    ∧ spooky_final long_state 0 0 = Some (state', out)
    ∧ m_data state' ≠ m_data long_state
    ∧ m_data long_state !! 8%nat = Some (byte_of 8)
    ∧ m_data state' !! 8%nat = Some x00.
Proof.
  eexists _, _. split; [by vm_compute |].
  split; [by vm_compute |]. cbn [m_data].
  split; [by vm_compute |]. split; by vm_compute.
Qed.

(** [spooky_init] on a structure with a 96-byte buffer. *)
Lemma spooky_init_well_formed (state : spooky_state) (seed1 seed2 : Z) :
  length (m_data state) = 96%nat →
  let state' := spooky_init state seed1 seed2 in
  well_formed state' ∧ m_length state' = 0 ∧ m_remainder state' = 0
  ∧ m_state_0 state' = seed1 ∧ m_state_1 state' = seed2
  ∧ m_data state' = m_data state.
Proof.
  intros Hd. destruct state as [data v L r]. destruct_vars v.
  cbn in *. repeat split; (done || lia).
Qed.

(** What does hold of the states of a session, as long as the byte count
    fits in [size_t]: the state is well formed, [m_length] counts the
    bytes appended, and below 96 bytes the buffer holds them all. *)
Lemma spooky_updates_invariant (fragments : list (bool * list byte))
  (state : spooky_state) (sofar : list byte) :
  well_formed state → m_length state = len sofar →
  (m_length state < 96 →
   m_remainder state = m_length state ∧ buffered state = sofar) →
  len sofar + len (joined fragments) + 96 <= 2 ^ 64 →
  ∃ state',
    spooky_updates state fragments = Some state'
    ∧ well_formed state'
    ∧ m_length state' = len (sofar ++ joined fragments)
    ∧ (m_length state' < 96 →
       m_remainder state' = m_length state'
       ∧ buffered state' = sofar ++ joined fragments).
Proof.
  revert state sofar.
  induction fragments as [| [direct message] fragments IH];
    intros state sofar Hwf HL Hbuf Hfit; cbn [spooky_updates joined map concat].
  - rewrite app_nil_r. eauto.
  - change (concat (map snd fragments)) with (joined fragments) in *.
    cbn [joined map concat snd] in Hfit.
    change (concat (map snd fragments)) with (joined fragments) in Hfit.
    assert (Hlen : ∀ a b : list byte, len (a ++ b) = len a + len b)
      by (intros; unfold len; rewrite length_app; lia).
    rewrite Hlen in Hfit.
    pose proof (len_nonneg message). pose proof (len_nonneg sofar).
    pose proof (len_nonneg (joined fragments)).
    destruct (spooky_update_well_formed state direct message Hwf)
      as (state1 & E & Hwf1 & HL1); [lia |].
    rewrite E. cbn [mbind option_bind].
    rewrite size_wrap_small in HL1 by lia.
    destruct (IH state1 (sofar ++ message)) as (state' & E' & Hwf' & HL' & Hbuf').
    + done.
    + rewrite HL1, Hlen. lia.
    + intros Hsmall. pose proof Hwf as [Hd Hr].
      assert (m_length state < 96) as Hs by lia.
      destruct (Hbuf Hs) as [HR HB].
      rewrite update_short in E; [| done | lia].
      injection E as <-. cbn in *.
      split; [lia |]. unfold buffered. cbn.
      replace (Z.to_nat (len message + m_remainder state))
        with (Z.to_nat (m_remainder state) + length message)%nat
        by (unfold len; lia).
      rewrite take_memcpy by lia. by rewrite <- HB.
    + rewrite Hlen. lia.
    + exists state'. rewrite <- app_assoc in *. done.
Qed.

(** C5 at a block boundary: after 50 and then 46 bytes all 96 bytes have
    been mixed into [m_state], yet [m_remainder] is still 50 and the
    first 50 bytes of [m_data] are the first 50 bytes of the message, not
    the last 50 bytes appended. *)
Theorem stale_remainder_at_block_boundary :
  (∀ direct,
     spooky_updates (spooky_init blank_state 1 2) (boundary_fragments direct)
     = Some boundary_state)
  ∧ m_length boundary_state = 96
  ∧ m_remainder boundary_state = 50
  ∧ Some (m_state boundary_state) = mix (words boundary_message 0) (seed_vars 1 2)
  ∧ buffered boundary_state = take 50 boundary_message
  ∧ buffered boundary_state ≠ drop 46 boundary_message.
Proof.
  split; [intros []; by vm_compute |].
  repeat split; by vm_compute.
Qed.

(** ** What the short hash reads *)

Lemma p8_ext (mem mem' : list byte) (u i : nat) :
  mem !! (u + i)%nat = mem' !! (u + i)%nat → p8 mem u i = p8 mem' u i.
Proof. intros H. by rewrite !p8_nth, H. Qed.

Lemma p32_ext (mem mem' : list byte) (u i : nat) :
  (∀ j, (4 * i ≤ j < 4 * i + 4)%nat → mem !! (u + j)%nat = mem' !! (u + j)%nat) →
  p32 mem u i = p32 mem' u i.
Proof.
  intros H. unfold p32. apply le_read_ext. intros j Hj.
  replace (u + 4 * i + j)%nat with (u + (4 * i + j))%nat by lia.
  apply H. lia.
Qed.

Lemma p64_ext (mem mem' : list byte) (u i : nat) :
  (∀ j, (8 * i ≤ j < 8 * i + 8)%nat → mem !! (u + j)%nat = mem' !! (u + j)%nat) →
  p64 mem u i = p64 mem' u i.
Proof.
  intros H. unfold p64. apply le_read_ext. intros j Hj.
  replace (u + 8 * i + j)%nat with (u + (8 * i + j))%nat by lia.
  apply H. lia.
Qed.

(** The 32-byte loop reads [32 * n] bytes from [u] on and leaves the
    pointer behind them. *)
Lemma short_blocks_ext (n : nat) (mem mem' : list byte) (u : nat) (v : vars4) :
  (∀ j, (j < 32 * n)%nat → mem !! (u + j)%nat = mem' !! (u + j)%nat) →
  short_blocks n mem u v = short_blocks n mem' u v.
Proof.
  revert u v. induction n as [|n IH]; intros u v H; cbn [short_blocks]; [done |].
  destruct_vars v. cbn beta iota zeta.
  rewrite (p64_ext mem mem' u 0), (p64_ext mem mem' u 1),
    (p64_ext mem mem' u 2), (p64_ext mem mem' u 3)
    by (intros j Hj; apply H; lia).
  destruct (short_mix _) as [w |]; [| done].
  cbn [mbind option_bind]. destruct_vars w. cbn beta iota zeta.
  apply IH. intros j Hj.
  replace (u + 32 + j)%nat with (u + (32 + j))%nat by lia.
  apply H. lia.
Qed.

Lemma short_blocks_pointer (n : nat) (mem : list byte) (u u' : nat) (v v' : vars4) :
  short_blocks n mem u v = Some (u', v') → u' = (u + 32 * n)%nat.
Proof.
  revert u v. induction n as [|n IH]; intros u v; cbn [short_blocks].
  - intros [= <- _]. lia.
  - destruct_vars v. cbn beta iota zeta.
    destruct (short_mix _) as [w |]; [| done].
    cbn [mbind option_bind]. destruct_vars w. cbn beta iota zeta.
    intros E. apply IH in E. lia.
Qed.

Ltac rewrite_reads mem mem' u H :=
  repeat match goal with
    | |- context [p8 mem u ?i] =>
        rewrite (p8_ext mem mem' u i) by (apply H; simpl; lia)
    | |- context [p32 mem u ?i] =>
        rewrite (p32_ext mem mem' u i) by (intros; apply H; simpl; lia)
    | |- context [p64 mem u ?i] =>
        rewrite (p64_ext mem mem' u i) by (intros; apply H; simpl; lia)
    end.

(** The tail step reads the [remainder] bytes at [u] and nothing else. *)
Lemma short_switch_ext (mem mem' : list byte) (u : nat) (remainder c d : Z) :
  0 <= remainder < 16 →
  (∀ j, (j < Z.to_nat remainder)%nat → mem !! (u + j)%nat = mem' !! (u + j)%nat) →
  short_switch mem u remainder c d = short_switch mem' u remainder c d.
Proof.
  intros Hr H.
  set (n := Z.to_nat remainder) in *.
  assert (Hn : remainder = Z.of_nat n) by lia.
  clearbody n. subst remainder.
  do 16 (destruct n as [|n];
         [unfold short_switch; cbn -[add64 shl64 p8 p32 p64];
          rewrite_reads mem mem' u H; reflexivity |]).
  lia.
Qed.

(** [spooky_shorthash] reads the first [length] bytes of its buffer and
    nothing else. *)
Lemma spooky_shorthash_ext (mem mem' : list byte) (length hash1 hash2 : Z) :
  0 <= length →
  (∀ j, (j < Z.to_nat length)%nat → mem !! j = mem' !! j) →
  spooky_shorthash mem length hash1 hash2
  = spooky_shorthash mem' length hash1 hash2.
Proof.
  intros Hlen H.
  pose proof (Z.div_mod length 32 ltac:(lia)) as Hdm.
  pose proof (Z.mod_pos_bound length 32 ltac:(lia)) as Hb.
  assert (Hq : 0 <= length / 32) by (apply Z.div_pos; lia).
  unfold spooky_shorthash, short_chunks. cbn zeta.
  destruct (15 <? length) eqn:E15.
  - rewrite (short_blocks_ext _ mem mem') by (intros j Hj; apply H; lia).
    destruct (short_blocks _ mem' 0 _) as [[u w] |] eqn:Eb; [| done].
    apply short_blocks_pointer in Eb. cbn [mbind option_bind].
    destruct_vars w. cbn beta iota zeta.
    destruct (16 <=? length `mod` 32) eqn:E16.
    + apply Z.leb_le in E16.
      rewrite (p64_ext mem mem' u 0), (p64_ext mem mem' u 1)
        by (intros j Hj; apply H; lia).
      destruct (short_mix _) as [w' |]; [| done].
      cbn [mbind option_bind]. destruct_vars w'.
      cbn [mbind option_bind]. cbn beta iota zeta.
      unfold short_tail.
      rewrite (short_switch_ext mem mem'); [done | lia |].
      intros j Hj. apply H. lia.
    + apply Z.leb_gt in E16. cbn [mbind option_bind]. cbn beta iota zeta.
      unfold short_tail.
      rewrite (short_switch_ext mem mem'); [done | lia |].
      intros j Hj. apply H. lia.
  - apply Z.ltb_ge in E15. cbn [mbind option_bind]. cbn beta iota zeta.
    unfold short_tail.
    rewrite Z.mod_small by lia.
    rewrite (short_switch_ext mem mem'); [done | lia |].
    intros j Hj. apply H. simpl. lia.
Qed.

(** Below 96 bytes a streaming run returns the short hash of the bytes
    appended, seeded with what the caller's output variables hold: this
    is the one-shot hash of the same bytes with those values as seeds,
    not with the seeds given to [spooky_init]. *)
Lemma streamed_short (state0 : spooky_state) (seed1 seed2 : Z)
  (fragments : list (bool * list byte)) (hash1 hash2 : Z) :
  length (m_data state0) = 96%nat → len (joined fragments) < 96 →
  streamed state0 seed1 seed2 fragments hash1 hash2
  = spooky_hash128 (joined fragments) (len (joined fragments)) hash1 hash2.
Proof.
  intros Hbuf0 Hshort. unfold streamed.
  destruct (spooky_init_well_formed state0 seed1 seed2 Hbuf0)
    as (Hwf & HL & HR & _).
  destruct (spooky_updates_invariant fragments
              (spooky_init state0 seed1 seed2) [])
    as (state & -> & Hwf' & HL' & Hbuf);
    [done | done | | change (len []) with 0; lia |].
  { intros _. rewrite HL, HR. split; [done |].
    unfold buffered. rewrite HR. by rewrite take_0. }
  cbn [mbind option_bind app] in *.
  destruct (Hbuf ltac:(lia)) as [HR' HB].
  unfold spooky_final, spooky_hash128. change SC_BLOCKSIZE with 96.
  rewrite HL'.
  destruct (len (joined fragments) <? 96) eqn:E; [| apply Z.ltb_ge in E; lia].
  rewrite (spooky_shorthash_ext (m_data state) (joined fragments)).
  - by destruct (spooky_shorthash _ _ _ _) as [[h1 h2] |].
  - apply len_nonneg.
  - intros j Hj. rewrite <- HB. unfold buffered.
    rewrite lookup_take_lt; [done | lia].
Qed.
(** ** One fragment of at least one block *)

(** [spooky_hash128] on its long path, with the final block written as
    the leftover bytes, zeros and the length byte. *)
Lemma spooky_hash128_long (message : list byte) (seed1 seed2 : Z) :
  96 <= len message →
  let k := (length message / 96)%nat in
  spooky_hash128 message (len message) seed1 seed2
  = (v ← mix_blocks k message 0 (seed_vars seed1 seed2);
     v ← mix (words (<[95%nat := byte_of (len message)]>
                       (drop (k * 96) message
                        ++ replicate (96 - length message `mod` 96) x00)) 0) v;
     '(h0, h1, _, _, _, _, _, _, _, _, _, _) ← End v;
     Some (h0, h1)).
Proof.
  intros Hlong k. unfold spooky_hash128. change SC_BLOCKSIZE with 96.
  destruct (len message <? 96) eqn:E; [apply Z.ltb_lt in E; lia |].
  unfold len in *.
  assert (Hk : Z.to_nat (Z.of_nat (length message) / 96) = k).
  { unfold k. rewrite <- (Nat2Z.id (length message / 96)).
    f_equal. by rewrite Nat2Z.inj_div. }
  rewrite Hk. cbn zeta.
  destruct (mix_blocks k message 0 _) as [v |]; [| done].
  cbn [mbind option_bind].
  pose proof (Nat.div_mod_eq (length message) 96) as Hdm. fold k in Hdm.
  pose proof (Nat.mod_upper_bound (length message) 96) as Hub.
  set (r := (length message `mod` 96)%nat) in *.
  replace (Z.to_nat (Z.of_nat (length message) - Z.of_nat (0 + k * 96)))
    with r by lia.
  replace (Z.to_nat (96 - (Z.of_nat (length message) - Z.of_nat (0 + k * 96))))
    with (96 - r)%nat by lia.
  rewrite (final_block_built local_buf message (0 + k * 96) r) by (done || lia).
  unfold Spec128.final_block.
  assert (Hb : ∀ z, byte_of (z `mod` 256) = byte_of z)
    by (intros z; unfold byte_of, u8; by rewrite Z.mod_mod).
  rewrite Hb, length_drop.
  replace (length message - (0 + k * 96))%nat with r by lia.
  destruct (mix _ v) as [v' |]; [| done].
  cbn [mbind option_bind].
  destruct (End v') as [w |]; [| done].
  cbn [mbind option_bind]. by destruct_vars w.
Qed.

(** A message of at least 96 bytes fed in one [spooky_update] call
    hashes to what [spooky_hash128] returns for it: without a fragment
    that ends on a block boundary the long path of the streaming
    interface agrees with the one-shot hash. *)
Lemma streamed_one_fragment (state0 : spooky_state) (seed1 seed2 : Z)
  (direct : bool) (message : list byte) (hash1 hash2 : Z) :
  length (m_data state0) = 96%nat →
  96 <= len message → len message + 96 <= 2 ^ 64 →
  streamed state0 seed1 seed2 [(direct, message)] hash1 hash2
  = spooky_hash128 message (len message) seed1 seed2.
Proof.
  intros Hbuf0 Hlong Hfit.
  rewrite spooky_hash128_long by done.
  unfold streamed. cbn [spooky_updates].
  destruct (spooky_init_well_formed state0 seed1 seed2 Hbuf0)
    as (Hwf & HL & HR & H0 & H1 & HD).
  set (state1 := spooky_init state0 seed1 seed2) in *.
  rewrite update_long by (rewrite ?HR; done || lia).
  rewrite HR, HL, H0, H1. cbn [Z.eqb Z.ltb Z.compare].
  rewrite Z.add_0_r, size_wrap_small by lia.
  rewrite update_blocks_normal; [| apply Hwf | lia | unfold len; lia].
  unfold len in *.
  set (k := (length message / 96)%nat).
  assert (Hk : Z.to_nat (Z.of_nat (length message) / 96) = k).
  { unfold k. rewrite <- (Nat2Z.id (length message / 96)).
    f_equal. by rewrite Nat2Z.inj_div. }
  rewrite Hk.
  destruct (mix_blocks k message 0 _) as [v |]; [| done].
  cbn [mbind option_bind].
  pose proof (Nat.div_mod_eq (length message) 96) as Hdm. fold k in Hdm.
  pose proof (Nat.mod_upper_bound (length message) 96) as Hub.
  assert (Hmod : Z.of_nat (length message) `mod` 96
                 = Z.of_nat (length message `mod` 96))
    by (by rewrite Nat2Z.inj_mod).
  rewrite Hmod.
  set (r := (length message `mod` 96)%nat) in *.
  set (data := if direct || (k =? 0)%nat then _ else _).
  assert (Hdata : length data = 96%nat).
  { unfold data. destruct (direct || (k =? 0)%nat) eqn:Ek; [apply Hwf |].
    apply orb_false_iff in Ek as [_ Ek]. apply Nat.eqb_neq in Ek.
    apply length_bytes_at. lia. }
  assert (Hr96 : (r < 96)%nat) by lia.
  clearbody data k r.
  change (0 + k * 96)%nat with (k * 96)%nat.
  assert (Hrest : length (drop (k * 96) message) = r)
    by (rewrite length_drop; lia).
  match goal with
  | |- context [spooky_final ?s _ _] => set (state2 := s)
  end.
  assert (Hwf2 : well_formed state2 ∧ m_length state2 = Z.of_nat (length message)
                 ∧ m_state state2 = v
                 ∧ buffered state2 = drop (k * 96) message
                 ∧ m_remainder state2 = Z.of_nat r).
  { unfold state2. destruct (0 <? Z.of_nat r) eqn:Er.
    - apply Z.ltb_lt in Er.
      split; [split; cbn; [rewrite length_memcpy; lia | lia] |].
      repeat split; cbn; try done.
      unfold buffered. cbn. rewrite Nat2Z.id.
      pose proof (take_memcpy data (drop (k * 96) message) 0) as Ht.
      simpl in Ht. rewrite Hrest in Ht. rewrite Ht by lia. done.
    - apply Z.ltb_ge in Er. assert (r = 0%nat) as Hr0 by lia.
      split; [split; cbn; [done | lia] |].
      repeat split; cbn; try done; [| lia].
      unfold buffered. cbn. rewrite HR. rewrite take_0.
      symmetry. apply drop_ge. lia. }
  destruct Hwf2 as (Hwf2 & HL2 & HS2 & HB2 & HR2).
  rewrite spooky_final_long by (done || lia).
  unfold padded. rewrite HL2, HS2, HB2, HR2, Nat2Z.id.
  destruct (mix _ v) as [v' |]; [| done].
  cbn [mbind option_bind].
  destruct (End v') as [w |]; [| done].
  cbn [mbind option_bind]. by destruct_vars w.
Qed.

(** C1 at a block boundary: the 96 bytes [0 .. 95] fed as 50 + 46 bytes
    do not hash to what [spooky_hash128] returns for them, whatever the
    output variables hold and whichever loop [spooky_update] takes; and
    for the empty message the streamed result is the short hash seeded
    with the output variables, not with the seeds. *)
Theorem streamed_differs_from_one_shot :
  (∀ direct, joined (boundary_fragments direct) = boundary_message)
  ∧ (∀ direct hash1 hash2,
       streamed blank_state 1 2 (boundary_fragments direct) hash1 hash2
       = Some (12783211600235513998, 6393502005088930813))
  ∧ spooky_hash128 boundary_message (len boundary_message) 1 2
    = Some (9111632408918053659, 7823758347275393902)
  ∧ streamed blank_state 1 2 [] 0 0 = Some (9455175969015866530, 11224430879215462696)
  ∧ spooky_hash128 [] (len []) 1 2
    = Some (8907861694244392360, 5065828474899662215).
Proof.
  split; [intros direct; by vm_compute |].
  split; [intros [] hash1 hash2; by vm_compute |].
  repeat split; by vm_compute.
Qed.

(** C2 below 96 bytes: [spooky_final] returns the short hash of exactly
    the bytes appended, but seeded with what the caller's output
    variables hold; the seeds given to [spooky_init] do not enter the
    result.  With seeds 1 and 2 and the empty message, output variables
    holding 0 and 0 give another result than output variables holding 1
    and 2. *)
Theorem final_short_seeds_from_output_variables :
  (∀ state0 seed1 seed2 fragments hash1 hash2,
     length (m_data state0) = 96%nat → len (joined fragments) < 96 →
     streamed state0 seed1 seed2 fragments hash1 hash2
     = spooky_shorthash (joined fragments) (len (joined fragments)) hash1 hash2)
  ∧ streamed blank_state 1 2 [] 0 0
    = Some (9455175969015866530, 11224430879215462696)
  ∧ streamed blank_state 1 2 [] 1 2
    = Some (8907861694244392360, 5065828474899662215)
  ∧ spooky_shorthash [] 0 1 2
    = Some (8907861694244392360, 5065828474899662215).
Proof.
  split.
  - intros state0 seed1 seed2 fragments hash1 hash2 Hbuf Hshort.
    rewrite streamed_short by done.
    unfold spooky_hash128. change SC_BLOCKSIZE with 96.
    by destruct (len (joined fragments) <? 96) eqn:E;
      [| apply Z.ltb_ge in E; lia].
  - repeat split; by vm_compute.
Qed.

Lemma final_short_seeds_from_output_variables_witness :
  length (m_data blank_state) = 96%nat
  ∧ len (joined [(true, [x01; x02]); (false, [x03])]) < 96
  ∧ streamed blank_state 1 2 [(true, [x01; x02]); (false, [x03])] 5 7
    = spooky_shorthash [x01; x02; x03] 3 5 7.
Proof.
  split; [reflexivity |]. split; [by vm_compute |].
  apply (proj1 final_short_seeds_from_output_variables
           blank_state 1 2 [(true, [x01; x02]); (false, [x03])] 5 7);
    [reflexivity | by vm_compute].
Defined.

(** ** No undefined shift *)

Lemma mix_blocks_copied_total (n : nat) (mem : list byte) (u : nat)
  (data : list byte) (v : vars12) :
  is_Some (mix_blocks_copied n mem u data v).
Proof.
  revert u data v.
  induction n as [|n IH]; intros u data v; cbn [mix_blocks_copied]; [eauto |].
  apply bind_total; [apply mix_total | intros w; apply IH].
Qed.

Lemma update_blocks_total (state : spooky_state) (direct : bool)
  (message : list byte) (u : nat) (length : Z) (v : vars12) :
  is_Some (update_blocks state direct message u length v).
Proof.
  unfold update_blocks. cbn zeta.
  apply bind_total; [| intros [state' v']; eauto].
  destruct direct.
  - apply bind_total; [apply mix_blocks_total | eauto].
  - apply bind_total; [apply mix_blocks_copied_total | intros [data v']; eauto].
Qed.

Lemma spooky_update_total (state : spooky_state) (direct : bool)
  (message : list byte) (length : Z) :
  is_Some (spooky_update state direct message length).
Proof.
  unfold spooky_update. cbn zeta.
  destruct (_ <? SC_BLOCKSIZE); [eauto |].
  apply bind_total.
  - destruct (negb _); [| eauto].
    apply bind_total; [apply mix_total | eauto].
  - intros [[[state' u] length'] v]. apply update_blocks_total.
Qed.

Lemma spooky_final_total (state : spooky_state) (hash1 hash2 : Z) :
  is_Some (spooky_final state hash1 hash2).
Proof.
  unfold spooky_final. cbn zeta.
  destruct (_ <? SC_BLOCKSIZE).
  - apply bind_total; [apply spooky_shorthash_total | intros [h1 h2]; eauto].
  - apply bind_total; [apply mix_total |]. intros v.
    apply bind_total; [apply End_total |]. intros w.
    destruct_vars w. eauto.
Qed.

(** C10: [rot64] is defined exactly for the counts [1 .. 63]; every
    network is its table-driven loop, whose only rotations are by the
    entries of its table; every entry of the four tables lies in
    [1 .. 63]; hence no network, and no hash routine built on them, ever
    reaches an undefined shift. *)
Theorem rot64_counts_in_range :
  (∀ x k, is_Some (rot64 x k) ↔ 1 <= k <= 63)
  ∧ (∀ x k, 1 <= k <= 63 → rot64 x k = Some (Z.lor (shl64 x k) (shr64 x (64 - k))))
  ∧ Forall (λ k, 1 <= k <= 63)
      (Spec.mix_rotations ++ Spec.end_rotations
       ++ Spec.short_mix_rotations ++ Spec.short_end_rotations)
  ∧ (∀ data v, vars12_list <$> mix data v = Spec.mix data (vars12_list v))
  ∧ (∀ v, vars12_list <$> End v = Spec.End (vars12_list v))
  ∧ (∀ v, vars4_list <$> short_mix v = Spec.short_mix (vars4_list v))
  ∧ (∀ v, vars4_list <$> short_end v = Spec.short_end (vars4_list v))
  ∧ (∀ data v, is_Some (mix data v))
  ∧ (∀ v, is_Some (End v))
  ∧ (∀ v, is_Some (short_mix v))
  ∧ (∀ v, is_Some (short_end v))
  ∧ (∀ message length hash1 hash2,
       is_Some (spooky_shorthash message length hash1 hash2))
  ∧ (∀ message length hash1 hash2,
       is_Some (spooky_hash128 message length hash1 hash2))
  ∧ (∀ state direct message length,
       is_Some (spooky_update state direct message length))
  ∧ (∀ state hash1 hash2, is_Some (spooky_final state hash1 hash2)).
Proof.
  split; [exact rot64_defined_iff |].
  split; [exact rot64_in_range |].
  split; [repeat constructor; lia |].
  split; [intros data v; destruct_vars v; run_network; reflexivity |].
  split; [intros v; destruct_vars v; run_network; reflexivity |].
  split; [intros v; destruct_vars v; run_network; reflexivity |].
  split; [intros v; destruct_vars v; run_network; reflexivity |].
  repeat split;
    auto using mix_total, End_total, short_mix_total, short_end_total,
      spooky_shorthash_total, spooky_hash128_total, spooky_update_total,
      spooky_final_total.
Qed.

Lemma rot64_counts_in_range_witness :
  1 <= 32 <= 63
  ∧ rot64 5 32 = Some (Z.lor (shl64 5 32) (shr64 5 (64 - 32)))
  ∧ is_Some (rot64 5 32).
Proof.
  split; [lia |]. split.
  - apply (proj1 (proj2 rot64_counts_in_range)). lia.
  - apply (proj1 rot64_counts_in_range). lia.
Defined.

(** ** Streaming away from the block-boundary case *)

Lemma mix_blocks_ext (n : nat) (mem mem' : list byte) (u u' : nat) (v : vars12) :
  (∀ j, (j < 96 * n)%nat → mem !! (u + j)%nat = mem' !! (u' + j)%nat) →
  mix_blocks n mem u v = mix_blocks n mem' u' v.
Proof.
  revert u u' v. induction n as [|n IH]; intros u u' v H; cbn [mix_blocks]; [done |].
  rewrite (words_ext mem mem' u u') by (intros j Hj; apply H; lia).
  destruct (mix _ v) as [v1 |]; [| done]. cbn [mbind option_bind].
  apply IH. intros j Hj.
  replace (u + 96 + j)%nat with (u + (96 + j))%nat by lia.
  replace (u' + 96 + j)%nat with (u' + (96 + j))%nat by lia.
  apply H. lia.
Qed.

Lemma mix_blocks_add (a b : nat) (mem : list byte) (u : nat) (v : vars12) :
  mix_blocks (a + b) mem u v
  = (v ← mix_blocks a mem u v; mix_blocks b mem (u + 96 * a) v).
Proof.
  revert u v. induction a as [|a IH]; intros u v; cbn [mix_blocks Nat.add].
  - cbn [mbind option_bind]. f_equal. lia.
  - destruct (mix _ v) as [v1 |]; [| done]. cbn [mbind option_bind].
    rewrite IH. destruct (mix_blocks a mem (u + 96) v1) as [v2 |]; [| done].
    cbn [mbind option_bind]. f_equal. lia.
Qed.

(** The blocks of a fragment, seen as blocks of everything appended. *)
Lemma mix_blocks_in_app (n : nat) (sofar message : list byte) (u : nat)
  (v : vars12) :
  mix_blocks n message u v = mix_blocks n (sofar ++ message) (length sofar + u) v.
Proof.
  apply mix_blocks_ext. intros j Hj.
  rewrite lookup_app_r by lia. f_equal. lia.
Qed.

Lemma mix_blocks_in_prefix (n : nat) (sofar message : list byte) (v : vars12) :
  (96 * n ≤ length sofar)%nat →
  mix_blocks n (sofar ++ message) 0 v = mix_blocks n sofar 0 v.
Proof.
  intros H. apply mix_blocks_ext. intros j Hj.
  rewrite lookup_app_l by lia. done.
Qed.

Lemma take_memcpy_front (dst src : list byte) (m : nat) :
  length src = m → take m (memcpy dst 0 src) = src.
Proof.
  intros <-. pose proof (take_memcpy dst src 0) as H.
  cbn [Nat.add] in H. apply H. lia.
Qed.

Lemma len_app (a b : list byte) : len (a ++ b) = len a + len b.
Proof. unfold len. rewrite length_app. lia. Qed.

Lemma tracks_init (state : spooky_state) (seed1 seed2 : Z) :
  length (m_data state) = 96%nat →
  tracks seed1 seed2 [] (spooky_init state seed1 seed2).
Proof.
  intros Hd.
  destruct (spooky_init_well_formed state seed1 seed2 Hd)
    as ([Hd' _] & HL & HR & H0 & H1 & _).
  repeat split; try done.
  all: try (unfold buffered; rewrite HR; by rewrite take_0).
  all: try (cbn; lia).
Qed.

Lemma tracks_well_formed (seed1 seed2 : Z) (sofar : list byte)
  (state : spooky_state) :
  tracks seed1 seed2 sofar state → well_formed state.
Proof.
  intros (Hd & _ & HR & _). split; [done |]. rewrite HR.
  pose proof (Nat.mod_upper_bound (length sofar) 96). lia.
Qed.

(** The variables a well-tracked state enters the long path with. *)
Lemma tracks_variables (seed1 seed2 : Z) (sofar : list byte)
  (state : spooky_state) :
  tracks seed1 seed2 sofar state →
  mix_blocks (length sofar / 96) sofar 0 (seed_vars seed1 seed2)
  = Some (if m_length state <? 96
          then seed_vars (m_state_0 state) (m_state_1 state)
          else m_state state).
Proof.
  intros (_ & HL & _ & _ & Hseed & Hmix).
  destruct (m_length state <? 96) eqn:E.
  - apply Z.ltb_lt in E. rewrite HL in E.
    destruct (Hseed E) as [-> ->].
    replace (length sofar / 96)%nat with 0%nat by (unfold len in E; lia).
    done.
  - apply Z.ltb_ge in E. rewrite HL in E. by apply Hmix.
Qed.

Lemma tracks_update (seed1 seed2 : Z) (sofar : list byte)
  (state : spooky_state) (direct : bool) (message : list byte) :
  tracks seed1 seed2 sofar state →
  len sofar + len message + 96 <= 2 ^ 64 →
  (length sofar mod 96 = 0 ∨ (length sofar + length message) mod 96 ≠ 0)%nat →
  ∃ state',
    spooky_update state direct message (len message) = Some state'
    ∧ tracks seed1 seed2 (sofar ++ message) state'.
Proof.
  intros Htr Hfit Hclean.
  pose proof (tracks_well_formed _ _ _ _ Htr) as Hwf.
  pose proof (tracks_variables _ _ _ _ Htr) as Hv.
  destruct Htr as (Hd & HL & HR & HB & Hseed & Hmix).
  pose proof (len_nonneg message) as Hn. pose proof (len_nonneg sofar) as Hp.
  set (p := length sofar) in *. set (n := length message) in *.
  assert (Hlp : len sofar = Z.of_nat p) by done.
  assert (Hln : len message = Z.of_nat n) by done.
  assert (Hr : (p mod 96 < 96)%nat) by (apply Nat.mod_upper_bound; lia).
  destruct (Z.lt_ge_cases (len message + m_remainder state) 96) as [Hs | Hl].
  - (* the fragment is stuffed away *)
    rewrite update_short by done.
    eexists. split; [reflexivity |].
    rewrite HR, HL in *. rewrite Hln, Hlp in *.
    unfold tracks. cbn [m_data m_length m_remainder m_state].
    rewrite length_app, len_app, Hln, Hlp. fold p n.
    assert (Hmod : ((p + n) mod 96 = p mod 96 + n)%nat) by lia.
    rewrite Hmod.
    split; [rewrite length_memcpy; fold n; lia |].
    split; [rewrite size_wrap_small; lia |].
    split; [lia |].
    split.
    { unfold buffered. cbn [m_data m_remainder].
      replace (Z.to_nat (Z.of_nat n + Z.of_nat (p mod 96)))
        with (Z.to_nat (Z.of_nat (p mod 96)) + length message)%nat
        by (fold n; lia).
      rewrite take_memcpy by lia.
      unfold buffered in HB. rewrite HR in HB. rewrite HB.
      rewrite drop_app_le by (fold p; lia). fold p.
      do 2 f_equal. lia. }
    split.
    { intros Hsmall. apply Hseed. lia. }
    intros Hbig.
    replace ((p + n) / 96)%nat with (p / 96)%nat by lia.
    rewrite mix_blocks_in_prefix by (fold p; lia).
    apply Hmix. lia.
  - (* at least one block is mixed *)
    rewrite update_long by (done || lia).
    set (v := if m_length state <? 96 then _ else _) in *.
    clearbody v. rename Hv into Ev.
    rewrite HR, HL in *. rewrite Hln, Hlp in *.
    rewrite size_wrap_small by lia.
    assert (Hfirst : mix_blocks (p / 96) (sofar ++ message) 0
                       (seed_vars seed1 seed2) = Some v)
      by (rewrite mix_blocks_in_prefix; [done | fold p; lia]).
    destruct (Z.of_nat (p mod 96) =? 0) eqn:E0.
    + (* nothing was held back *)
      apply Z.eqb_eq in E0.
      rewrite update_blocks_normal;
        [| done | lia | fold n; lia].
      set (k := Z.to_nat (Z.of_nat n / 96)).
      assert (Hk : k = (n / 96)%nat) by (unfold k; lia).
      destruct (mix_blocks_total k message 0 v) as [v' Ev'].
      rewrite Ev'. cbn [mbind option_bind].
      cbn [m_data m_length m_remainder set_m_length].
      set (data := if direct || (k =? 0)%nat then _ else _).
      assert (Hdata : length data = 96%nat).
      { unfold data. destruct (direct || (k =? 0)%nat) eqn:Ek; [done |].
        apply orb_false_iff in Ek as [_ Ek]. apply Nat.eqb_neq in Ek.
        apply length_bytes_at. fold n. lia. }
      clearbody data.
      assert (Hstate : mix_blocks ((p + n) / 96) (sofar ++ message) 0
                         (seed_vars seed1 seed2) = Some v').
      { replace ((p + n) / 96)%nat with (p / 96 + k)%nat by lia.
        rewrite mix_blocks_add, Hfirst. cbn [mbind option_bind].
        rewrite <- Ev'. symmetry.
        rewrite (mix_blocks_in_app k sofar message 0). fold p.
        f_equal. lia. }
      assert (Hmod : Z.of_nat n `mod` 96 = Z.of_nat ((p + n) mod 96)) by lia.
      rewrite Hmod.
      eexists. split; [reflexivity |].
      unfold tracks. rewrite length_app, len_app, Hln, Hlp. fold p n.
      destruct (0 <? Z.of_nat ((p + n) mod 96)) eqn:Erem;
        cbn [m_data m_length m_remainder m_state].
      * apply Z.ltb_lt in Erem.
        assert (Hrest : length (drop (0 + k * 96) message) = ((p + n) mod 96)%nat)
          by (rewrite length_drop; fold n; lia).
        split; [rewrite length_memcpy; lia |].
        split; [lia |]. split; [done |].
        split.
        { unfold buffered. cbn [m_data m_remainder]. rewrite Nat2Z.id.
          rewrite take_memcpy_front by done.
          rewrite drop_app_ge by (fold p; lia). fold p.
          f_equal. lia. }
        split; [intros; lia | intros _; exact Hstate].
      * apply Z.ltb_ge in Erem.
        assert (Hz : ((p + n) mod 96 = 0)%nat) by lia.
        split; [done |]. split; [lia |].
        split; [cbn [m_remainder set_m_length]; lia |].
        split.
        { unfold buffered. cbn [m_data m_remainder set_m_length].
          rewrite HR, E0, take_0.
          symmetry. apply drop_ge. rewrite length_app. fold p n. lia. }
        split; [intros; lia | intros _; exact Hstate].
    + (* the held-back bytes are completed to a block first *)
      apply Z.eqb_neq in E0.
      assert (Hne : ((p + n) mod 96 ≠ 0)%nat) by (destruct Hclean; lia).
      rewrite Nat2Z.id.
      set (data := buffered state ++ take (96 - p mod 96) message).
      assert (Hdata : length data = 96%nat).
      { unfold data. rewrite length_app, length_buffered, length_take by done.
        rewrite HR. fold n. lia. }
      assert (Hblock : words data 0 = words (sofar ++ message) (96 * (p / 96))).
      { apply words_ext. intros j Hj. unfold data. rewrite HB. fold p.
        destruct (Nat.lt_ge_cases j (p mod 96)) as [Hlt | Hge].
        - rewrite lookup_app_l by (rewrite length_drop; fold p; lia).
          rewrite lookup_app_l by (fold p; lia).
          rewrite lookup_drop. f_equal. lia.
        - rewrite lookup_app_r by (rewrite length_drop; fold p; lia).
          rewrite lookup_app_r by (fold p; lia).
          rewrite length_drop. fold p.
          rewrite lookup_take_lt by lia. f_equal. lia. }
      destruct (mix_total (words data 0) v) as [v1 Ev1].
      rewrite Ev1. cbn [mbind option_bind].
      rewrite update_blocks_normal;
        [| done | lia | fold n; lia].
      set (k := Z.to_nat ((Z.of_nat n - (96 - Z.of_nat (p mod 96))) / 96)).
      destruct (mix_blocks_total k message (96 - p mod 96) v1) as [v' Ev'].
      rewrite Ev'. cbn [mbind option_bind].
      cbn [m_data m_length m_remainder set_m_length set_m_data].
      set (data' := if direct || (k =? 0)%nat then _ else _).
      assert (Hdata' : length data' = 96%nat).
      { unfold data'. destruct (direct || (k =? 0)%nat) eqn:Ek; [done |].
        apply orb_false_iff in Ek as [_ Ek]. apply Nat.eqb_neq in Ek.
        apply length_bytes_at. fold n. unfold k in *. lia. }
      clearbody data'.
      assert (Hstate : mix_blocks ((p + n) / 96) (sofar ++ message) 0
                         (seed_vars seed1 seed2) = Some v').
      { replace ((p + n) / 96)%nat with (p / 96 + S k)%nat by (unfold k; lia).
        rewrite mix_blocks_add, Hfirst. cbn [mbind option_bind mix_blocks].
        rewrite Nat.add_0_l, <- Hblock, Ev1. cbn [mbind option_bind].
        rewrite <- Ev'. symmetry.
        rewrite (mix_blocks_in_app k sofar message (96 - p mod 96)). fold p.
        f_equal. lia. }
      assert (Hmod : (Z.of_nat n - (96 - Z.of_nat (p mod 96))) `mod` 96
                     = Z.of_nat ((p + n) mod 96)) by lia.
      rewrite Hmod.
      destruct (0 <? Z.of_nat ((p + n) mod 96)) eqn:Erem;
        [| apply Z.ltb_ge in Erem; lia].
      eexists. split; [reflexivity |].
      unfold tracks. rewrite length_app, len_app, Hln, Hlp. fold p n.
      cbn [m_data m_length m_remainder m_state].
      assert (Hrest : length (drop (96 - p mod 96 + k * 96) message)
                      = ((p + n) mod 96)%nat)
        by (rewrite length_drop; fold n; unfold k; lia).
      split; [rewrite length_memcpy; lia |].
      split; [lia |]. split; [done |].
      split.
      { unfold buffered. cbn [m_data m_remainder]. rewrite Nat2Z.id.
        rewrite take_memcpy_front by done.
        rewrite drop_app_ge by (fold p; lia). fold p.
        f_equal. unfold k. lia. }
      split; [intros; lia | intros _; exact Hstate].
Qed.

Lemma tracks_updates (seed1 seed2 : Z) (fragments : list (bool * list byte))
  (sofar : list byte) (state : spooky_state) :
  tracks seed1 seed2 sofar state →
  len sofar + len (joined fragments) + 96 <= 2 ^ 64 →
  clean_boundaries (len sofar) fragments = true →
  ∃ state',
    spooky_updates state fragments = Some state'
    ∧ tracks seed1 seed2 (sofar ++ joined fragments) state'.
Proof.
  revert sofar state.
  induction fragments as [| [direct message] fragments IH];
    intros sofar state Htr Hfit Hclean.
  - exists state. split; [done |]. unfold joined. cbn. by rewrite app_nil_r.
  - cbn [spooky_updates clean_boundaries] in *.
    change (joined ((direct, message) :: fragments))
      with (message ++ joined fragments) in *.
    rewrite len_app in Hfit.
    pose proof (len_nonneg message). pose proof (len_nonneg sofar).
    pose proof (len_nonneg (joined fragments)).
    apply andb_true_iff in Hclean as [Hhere Hrest].
    destruct (tracks_update seed1 seed2 sofar state direct message Htr)
      as (state1 & -> & Htr1).
    + lia.
    + unfold len in Hhere.
      apply orb_true_iff in Hhere as [Hz | Hnz].
      * apply Z.eqb_eq in Hz. left. lia.
      * apply negb_true_iff, Z.eqb_neq in Hnz. right. lia.
    + cbn [mbind option_bind].
      destruct (IH (sofar ++ message) state1) as (state' & E & Htr').
      * done.
      * rewrite len_app. lia.
      * by rewrite len_app.
      * exists state'. by rewrite <- app_assoc in Htr'.
Qed.

(** What [spooky_final] returns on a well-tracked state. *)
Lemma tracks_final (seed1 seed2 : Z) (sofar : list byte)
  (state : spooky_state) (hash1 hash2 : Z) :
  tracks seed1 seed2 sofar state →
  96 <= len sofar ∨ hash1 = seed1 ∧ hash2 = seed2 →
  snd <$> spooky_final state hash1 hash2
  = spooky_hash128 sofar (len sofar) seed1 seed2.
Proof.
  intros Htr Hcase.
  pose proof (tracks_well_formed _ _ _ _ Htr) as Hwf.
  destruct Htr as (Hd & HL & HR & HB & Hseed & Hmix).
  destruct (Z.lt_ge_cases (len sofar) 96) as [Hshort | Hlong].
  - destruct Hcase as [? | [-> ->]]; [lia |].
    unfold spooky_final, spooky_hash128. change SC_BLOCKSIZE with 96.
    rewrite HL.
    destruct (len sofar <? 96) eqn:E; [| apply Z.ltb_ge in E; lia].
    rewrite (spooky_shorthash_ext (m_data state) sofar).
    + by destruct (spooky_shorthash _ _ _ _) as [[h1 h2] |].
    + apply len_nonneg.
    + intros j Hj. unfold len in *.
      assert (Hb : buffered state = sofar).
      { rewrite HB. replace (length sofar - length sofar mod 96)%nat
          with 0%nat by lia. apply drop_0. }
      rewrite <- Hb. unfold buffered. rewrite HR.
      rewrite lookup_take_lt; [done | lia].
  - rewrite spooky_hash128_long by done.
    rewrite spooky_final_long by (done || lia).
    rewrite (Hmix Hlong). cbn [mbind option_bind].
    unfold padded. rewrite HL, HR, HB, Nat2Z.id.
    replace (length sofar - length sofar mod 96)%nat
      with (length sofar / 96 * 96)%nat by lia.
    destruct (mix _ (m_state state)) as [v |]; [| done].
    cbn [mbind option_bind].
    destruct (End v) as [w |]; [| done].
    cbn [mbind option_bind]. by destruct_vars w.
Qed.

(** X1: a session none of whose calls starts with bytes held back and
    ends exactly on a multiple of 96 bytes returns what [spooky_hash128]
    returns for the concatenated fragments, whichever loop
    [spooky_update] takes, provided at least 96 bytes were appended or
    the output variables hold the seeds when [spooky_final] is called. *)
Theorem streamed_agrees_on_clean_sessions (state0 : spooky_state)
  (seed1 seed2 : Z) (fragments : list (bool * list byte)) (hash1 hash2 : Z) :
  length (m_data state0) = 96%nat →
  len (joined fragments) + 96 <= 2 ^ 64 →
  clean_boundaries 0 fragments = true →
  96 <= len (joined fragments) ∨ hash1 = seed1 ∧ hash2 = seed2 →
  streamed state0 seed1 seed2 fragments hash1 hash2
  = spooky_hash128 (joined fragments) (len (joined fragments)) seed1 seed2.
Proof.
  intros Hbuf Hfit Hclean Hcase. unfold streamed.
  destruct (tracks_updates seed1 seed2 fragments []
              (spooky_init state0 seed1 seed2))
    as (state & -> & Htr); [by apply tracks_init | done | done |].
  cbn [mbind option_bind app] in *.
  by apply tracks_final.
Qed.

Lemma streamed_agrees_on_clean_sessions_witness :
  let fragments := [(true, take 50 long_message); (false, drop 50 long_message)] in
  length (m_data blank_state) = 96%nat
  ∧ len (joined fragments) + 96 <= 2 ^ 64
  ∧ clean_boundaries 0 fragments = true
  ∧ 96 <= len (joined fragments)
  ∧ streamed blank_state 1 2 fragments 0 0
    = spooky_hash128 (joined fragments) (len (joined fragments)) 1 2.
Proof.
  intros fragments.
  assert (H1 : length (m_data blank_state) = 96%nat) by reflexivity.
  assert (H2 : len (joined fragments) + 96 <= 2 ^ 64) by (by vm_compute).
  assert (H3 : clean_boundaries 0 fragments = true) by (by vm_compute).
  assert (H4 : 96 <= len (joined fragments)) by (by vm_compute).
  do 4 (split; [assumption |]).
  apply (streamed_agrees_on_clean_sessions blank_state 1 2 fragments 0 0 H1 H2 H3).
  left. exact H4.
Defined.

(** ** Calling [spooky_final] again, and empty or split fragments *)

Lemma padded_set_padded (state : spooky_state) :
  well_formed state → padded (set_m_data state (padded state)) = padded state.
Proof.
  intros Hwf. unfold padded at 1. unfold buffered.
  cbn [m_data m_length m_remainder set_m_data].
  by rewrite take_padded.
Qed.

(** X2: from 96 bytes on [spooky_final] can be called again: whatever
    the caller's output variables hold at the second call (after the
    first call they hold its result), it returns the same two words and
    the same state, and the first call does not depend on them either.
    Below 96 bytes it cannot: the second call reads the result of the
    first as its seeds, and right after [spooky_init] with seeds 1 and 2
    it returns other words than the first. *)
Theorem final_again :
  (∀ state state' hash1 hash2 out,
     well_formed state → SC_BLOCKSIZE <= m_length state →
     spooky_final state hash1 hash2 = Some (state', out) →
     ∀ hash1' hash2',
       spooky_final state' hash1' hash2' = Some (state', out)
       ∧ spooky_final state hash1' hash2' = Some (state', out))
  ∧ (let state := spooky_init blank_state 1 2 in
     ∃ out out',
       spooky_final state 0 0 = Some (state, out)
       ∧ spooky_final state out.1 out.2 = Some (state, out')
       ∧ out' ≠ out).
Proof.
  split.
  - intros state state' hash1 hash2 out Hwf Hlong E hash1' hash2'.
    change SC_BLOCKSIZE with 96 in Hlong.
    assert (Hwf' : well_formed (set_m_data state (padded state)))
      by (split; cbn; [by apply length_padded | apply Hwf]).
    rewrite spooky_final_long in E by done.
    split; [| by rewrite spooky_final_long].
    destruct (mix _ (m_state state)) as [v |] eqn:Ev; [| done].
    cbn [mbind option_bind] in E.
    destruct (End v) as [w |] eqn:Ew; [| done].
    cbn [mbind option_bind] in E. destruct_vars w.
    injection E as <- <-.
    rewrite spooky_final_long by done.
    rewrite padded_set_padded by done.
    cbn [m_state set_m_data]. rewrite Ev. cbn [mbind option_bind].
    rewrite Ew. cbn [mbind option_bind].
    unfold set_m_data. cbn [m_data m_state m_length m_remainder]. done.
  - eexists _, _. split; [vm_compute; reflexivity |].
    split; [vm_compute; reflexivity |]. vm_compute. discriminate.
Qed.

Lemma final_again_witness :
  well_formed long_state
  ∧ SC_BLOCKSIZE <= m_length long_state
  ∧ ∃ state' out,
      spooky_final long_state 0 0 = Some (state', out)
      ∧ spooky_final state' out.1 out.2 = Some (state', out)
      ∧ spooky_final long_state 5 7 = Some (state', out).
Proof.
  assert (Hwf : well_formed long_state) by (split; [reflexivity | by vm_compute]).
  assert (Hlong : SC_BLOCKSIZE <= m_length long_state) by (by vm_compute).
  split; [exact Hwf |]. split; [exact Hlong |].
  destruct (spooky_final_total long_state 0 0) as [[state' out] E].
  exists state', out. split; [exact E |].
  split.
  - exact (proj1 (proj1 final_again long_state state' 0 0 out Hwf Hlong E
                    out.1 out.2)).
  - exact (proj2 (proj1 final_again long_state state' 0 0 out Hwf Hlong E 5 7)).
Defined.

Lemma memcpy_nil (dst : list byte) (off : nat) : memcpy dst off [] = dst.
Proof. unfold memcpy. cbn. rewrite Nat.add_0_r. apply take_drop. Qed.

(** X3: appending an empty fragment changes nothing: the state is the
    same afterwards, whichever loop the call would take. *)
Theorem update_empty (state : spooky_state) (direct : bool) :
  well_formed state → 0 <= m_length state < 2 ^ 64 →
  spooky_update state direct [] 0 = Some state.
Proof.
  intros Hwf HL. pose proof Hwf as [Hd Hr].
  change 0 with (len []) at 1.
  rewrite update_short; [| done | change (len []) with 0; lia].
  change (len []) with 0. rewrite memcpy_nil, !Z.add_0_l.
  rewrite size_wrap_small by lia. by destruct state.
Qed.

Lemma update_empty_witness :
  well_formed long_state ∧ 0 <= m_length long_state < 2 ^ 64
  ∧ spooky_update long_state false [] 0 = Some long_state.
Proof.
  assert (Hwf : well_formed long_state) by (split; [reflexivity | by vm_compute]).
  assert (HL : 0 <= m_length long_state < 2 ^ 64) by (by vm_compute).
  split; [exact Hwf |]. split; [exact HL |].
  exact (update_empty long_state false Hwf HL).
Defined.

Lemma memcpy_memcpy (dst a b : list byte) (off : nat) :
  (off + length a + length b ≤ length dst)%nat →
  memcpy (memcpy dst off a) (off + length a) b = memcpy dst off (a ++ b).
Proof.
  intros H. unfold memcpy.
  rewrite (app_assoc (take off dst) a).
  rewrite take_app_length' by (rewrite length_app, length_take; lia).
  rewrite drop_app_ge by (rewrite length_app, length_take; lia).
  rewrite length_app, length_take, drop_drop, length_app.
  rewrite <- !app_assoc. do 3 f_equal. f_equal. lia.
Qed.

(** X4: as long as fewer than 96 bytes are held back afterwards, two
    fragments appended one after the other leave exactly the state that
    appending their concatenation leaves. *)
Theorem update_split_below_block (state : spooky_state)
  (direct1 direct2 direct : bool) (a b : list byte) :
  well_formed state → len a + len b + m_remainder state < 96 →
  (state1 ← spooky_update state direct1 a (len a);
   spooky_update state1 direct2 b (len b))
  = spooky_update state direct (a ++ b) (len (a ++ b)).
Proof.
  intros Hwf Hshort. pose proof Hwf as [Hd Hr].
  pose proof (len_nonneg a). pose proof (len_nonneg b).
  rewrite update_short by (done || lia). cbn [mbind option_bind].
  rewrite update_short.
  - rewrite update_short by (done || rewrite len_app; lia).
    cbn [m_data m_state m_length m_remainder]. f_equal.
    rewrite len_app. f_equal.
    + replace (Z.to_nat (len a + m_remainder state))
        with (Z.to_nat (m_remainder state) + length a)%nat by (unfold len; lia).
      apply memcpy_memcpy. unfold len in *. lia.
    + unfold size_wrap. rewrite Zplus_mod_idemp_r. f_equal. lia.
    + lia.
  - split; cbn; [| lia]. rewrite length_memcpy; unfold len in *; lia.
  - cbn. lia.
Qed.

Lemma update_split_below_block_witness :
  well_formed blank_state
  ∧ len [x01; x02] + len [x03] + m_remainder blank_state < 96
  ∧ (state1 ← spooky_update blank_state true [x01; x02] 2;
     spooky_update state1 false [x03] 1)
    = spooky_update blank_state true [x01; x02; x03] 3.
Proof.
  assert (Hwf : well_formed blank_state) by (split; [reflexivity | by vm_compute]).
  assert (Hs : len [x01; x02] + len [x03] + m_remainder blank_state < 96)
    by (by vm_compute).
  split; [exact Hwf |]. split; [exact Hs |].
  exact (update_split_below_block blank_state true false true
           [x01; x02] [x03] Hwf Hs).
Defined.

(** ** What the one-shot hash reads *)

Lemma bytes_at_ext (mem mem' : list byte) (u n : nat) :
  (∀ j, (j < n)%nat → mem !! (u + j)%nat = mem' !! (u + j)%nat) →
  bytes_at mem u n = bytes_at mem' u n.
Proof.
  intros H. unfold bytes_at. apply list_eq. intros j.
  destruct (Nat.lt_ge_cases j n) as [Hlt | Hge].
  - rewrite !lookup_take_lt, !lookup_drop by done. by apply H.
  - by rewrite !lookup_take_ge.
Qed.

(** X5: [spooky_shorthash] and [spooky_hash128] read the first [length]
    bytes of the buffer they are given and nothing else: two buffers
    that agree on these bytes hash alike. *)
Theorem hash_reads_length_bytes (mem mem' : list byte)
  (length hash1 hash2 : Z) :
  0 <= length →
  (∀ j, (j < Z.to_nat length)%nat → mem !! j = mem' !! j) →
  spooky_shorthash mem length hash1 hash2
  = spooky_shorthash mem' length hash1 hash2
  ∧ spooky_hash128 mem length hash1 hash2
    = spooky_hash128 mem' length hash1 hash2.
Proof.
  intros Hlen H.
  split; [by apply spooky_shorthash_ext |].
  unfold spooky_hash128. change SC_BLOCKSIZE with 96.
  destruct (length <? 96); [by apply spooky_shorthash_ext |].
  cbn zeta.
  rewrite (mix_blocks_ext _ mem mem' 0 0) by (intros j Hj; apply H; lia).
  destruct (mix_blocks _ mem' 0 _) as [v |];
    cbn [mbind option_bind]; [| reflexivity].
  rewrite (bytes_at_ext mem mem'); [reflexivity |].
  intros j Hj. apply H. lia.
Qed.

Lemma hash_reads_length_bytes_witness :
  0 <= 3
  ∧ spooky_hash128 [x01; x02; x03; x04] 3 5 7
    = spooky_hash128 [x01; x02; x03; xff; xfe] 3 5 7.
Proof.
  split; [lia |].
  apply (hash_reads_length_bytes [x01; x02; x03; x04]
           [x01; x02; x03; xff; xfe] 3 5 7); [lia |].
  intros j Hj. change (Z.to_nat 3) with 3%nat in Hj.
  do 3 (destruct j as [|j]; [reflexivity |]). lia.
Defined.

(** ** [spooky_init] resets the structure *)

Lemma alike_same_logical (s t : spooky_state) :
  alike s t → 96 <= m_length s → same_logical s t.
Proof.
  intros (HL & HR & HB & HV & _) Hlong. unfold entry_vars in HV.
  change SC_BLOCKSIZE with 96 in HV. rewrite <- HL in HV.
  destruct (m_length s <? 96) eqn:E; [apply Z.ltb_lt in E; lia |].
  done.
Qed.

Lemma same_logical_alike (s t : spooky_state) :
  same_logical s t → 96 <= m_length s → alike s t.
Proof.
  intros (HS & HL & HR & HB) Hlong. repeat split; try done; [| lia].
  unfold entry_vars. change SC_BLOCKSIZE with 96. rewrite <- HL.
  destruct (m_length s <? 96) eqn:E; [apply Z.ltb_lt in E; lia |].
  done.
Qed.

Lemma spooky_update_alike (s t : spooky_state) (direct : bool)
  (message : list byte) :
  well_formed s → well_formed t → alike s t →
  0 <= m_length s → m_length s + len message + 96 <= 2 ^ 64 →
  ∃ s' t',
    spooky_update s direct message (len message) = Some s'
    ∧ spooky_update t direct message (len message) = Some t'
    ∧ well_formed s' ∧ well_formed t' ∧ alike s' t'
    ∧ m_length s' = len message + m_length s.
Proof.
  intros Hs Ht Halike HL0 Hfit.
  pose proof (len_nonneg message) as Hn.
  destruct (Z.lt_ge_cases (m_length s) 96) as [Hsmall | Hbig].
  - (* still below one block *)
    destruct Halike as (HL & HR & HB & HV & Hinv).
    specialize (Hinv Hsmall).
    destruct (spooky_update_well_formed s direct message Hs)
      as (s' & Es & Hs' & HLs); [lia |].
    destruct (spooky_update_well_formed t direct message Ht)
      as (t' & Et & Ht' & HLt); [lia |].
    rewrite size_wrap_small in HLs, HLt by lia.
    exists s', t'. repeat (split; [done |]). split; [| done].
    pose proof Hs as [Hds Hrs]. pose proof Ht as [Hdt Hrt].
    destruct (Z.lt_ge_cases (len message + m_remainder s) 96) as [Hshort | Hlong].
    + rewrite update_short in Es by done.
      rewrite update_short in Et by (rewrite <- ?HR; done).
      injection Es as <-. injection Et as <-.
      unfold alike. cbn [m_length m_remainder].
      split; [congruence |]. split; [congruence |].
      split.
      { unfold buffered. cbn [m_data m_remainder]. rewrite <- HR.
        replace (Z.to_nat (len message + m_remainder s))
          with (Z.to_nat (m_remainder s) + length message)%nat
          by (unfold len; lia).
        rewrite !take_memcpy by lia.
        unfold buffered in HB. rewrite <- HR in HB. by rewrite HB. }
      split.
      { unfold entry_vars, m_state_0, m_state_1 in *.
        cbn [m_length m_state]. change SC_BLOCKSIZE with 96 in *.
        rewrite <- HL in *.
        rewrite size_wrap_small by lia.
        destruct (m_length s <? 96) eqn:E; [| apply Z.ltb_ge in E; lia].
        destruct (len message + m_length s <? 96) eqn:E';
          [done | apply Z.ltb_ge in E'; lia]. }
      intros _. rewrite size_wrap_small by lia. lia.
    + rewrite update_long in Es by (done || lia).
      rewrite update_long in Et by (rewrite <- ?HR; (done || lia)).
      assert (HV' :
        (if m_length s <? 96
         then seed_vars (m_state_0 s) (m_state_1 s) else m_state s)
        = (if m_length t <? 96
           then seed_vars (m_state_0 t) (m_state_1 t) else m_state t))
        by exact HV.
      rewrite <- HV' in Et. rewrite <- HL, <- HR, <- HB in Et.
      apply same_logical_alike; [| lia].
      destruct (m_remainder s =? 0) eqn:E0.
      * apply Z.eqb_eq in E0.
        match type of Es with
        | update_blocks ?s1 _ _ _ _ ?v = _ =>
            match type of Et with
            | update_blocks ?t1 _ _ _ _ _ = _ =>
                destruct (update_blocks_same_logical s1 t1 direct message 0
                            (len message) v)
                  as (s2 & t2 & Es2 & Et2 & Hsame)
            end
        end; try done.
        -- unfold len. lia.
        -- rewrite Es in Es2. rewrite Et in Et2.
           injection Es2 as <-. injection Et2 as <-. done.
      * apply Z.eqb_neq in E0.
        match type of Es with
        | context [mix ?d ?v] => destruct (mix d v) as [v1 |]; [| done]
        end.
        cbn [mbind option_bind] in Es, Et.
        assert (Hlen : length
          (buffered s ++ take (96 - Z.to_nat (m_remainder s)) message) = 96%nat).
        { rewrite length_app, length_buffered, length_take by done.
          unfold len in *. lia. }
        match type of Es with
        | update_blocks ?s1 _ _ ?u ?n ?v = _ =>
            match type of Et with
            | update_blocks ?t1 _ _ _ _ _ = _ =>
                destruct (update_blocks_same_logical s1 t1 direct message u n v)
                  as (s2 & t2 & Es2 & Et2 & Hsame)
            end
        end; try done.
        all: try (split; [done | cbn; lia]).
        all: try (unfold len in *; lia).
        rewrite Es in Es2. rewrite Et in Et2.
        injection Es2 as <-. injection Et2 as <-. done.
  - (* past the first block: the states have the same logical content *)
    pose proof (alike_same_logical s t Halike Hbig) as Hsame.
    destruct (spooky_update_same_logical s t direct message Hs Ht Hsame)
      as (s' & t' & Es & Et & Hs' & Ht' & Hsame' & HL'); [lia |].
    rewrite size_wrap_small in HL' by lia.
    exists s', t'. repeat (split; [done |]). split; [| done].
    apply same_logical_alike; [done | lia].
Qed.

Lemma spooky_updates_alike (fragments : list (bool * list byte))
  (s t : spooky_state) :
  well_formed s → well_formed t → alike s t →
  0 <= m_length s → m_length s + len (joined fragments) + 96 <= 2 ^ 64 →
  ∃ s' t',
    spooky_updates s fragments = Some s'
    ∧ spooky_updates t fragments = Some t'
    ∧ well_formed s' ∧ well_formed t' ∧ alike s' t'
    ∧ 0 <= m_length s'.
Proof.
  revert s t. induction fragments as [| [direct message] fragments IH];
    intros s t Hs Ht Halike HL0 Hfit.
  - exists s, t. done.
  - cbn [spooky_updates].
    change (joined ((direct, message) :: fragments))
      with (message ++ joined fragments) in Hfit.
    rewrite len_app in Hfit.
    pose proof (len_nonneg message). pose proof (len_nonneg (joined fragments)).
    destruct (spooky_update_alike s t direct message)
      as (s1 & t1 & -> & -> & Hs1 & Ht1 & Halike1 & HL1); [done .. | lia |].
    cbn [mbind option_bind]. apply IH; [done .. | lia | lia].
Qed.

Lemma spooky_final_alike (s t : spooky_state) (hash1 hash2 : Z) :
  well_formed s → well_formed t → alike s t → 0 <= m_length s →
  snd <$> spooky_final s hash1 hash2 = snd <$> spooky_final t hash1 hash2.
Proof.
  intros Hs Ht Halike HL0.
  destruct (Z.lt_ge_cases (m_length s) 96) as [Hsmall | Hbig].
  - destruct Halike as (HL & HR & HB & HV & Hinv).
    specialize (Hinv Hsmall).
    unfold spooky_final. change SC_BLOCKSIZE with 96. rewrite <- HL.
    destruct (m_length s <? 96) eqn:E; [| apply Z.ltb_ge in E; lia].
    rewrite (spooky_shorthash_ext (m_data s) (m_data t)).
    + by destruct (spooky_shorthash _ _ _ _) as [[h1 h2] |].
    + done.
    + intros j Hj.
      assert (Hb : ∀ st : spooky_state,
        (j < Z.to_nat (m_remainder st))%nat → m_data st !! j = buffered st !! j).
      { intros st Hlt. unfold buffered. by rewrite lookup_take_lt. }
      rewrite (Hb s), (Hb t), HB by lia. done.
  - destruct (spooky_final_same_logical s t hash1 hash2)
      as (s' & t' & out & -> & -> & _); [done | done | | done |].
    + by apply alike_same_logical.
    + done.
Qed.

(** X6: [spooky_init] resets the structure it is given: whatever the
    structure held before (the buffer, [m_state[2 .. 11]], the counts),
    a session on it returns the same two words. *)
Theorem init_resets (state0 state0' : spooky_state) (seed1 seed2 : Z)
  (fragments : list (bool * list byte)) (hash1 hash2 : Z) :
  length (m_data state0) = 96%nat → length (m_data state0') = 96%nat →
  len (joined fragments) + 96 <= 2 ^ 64 →
  streamed state0 seed1 seed2 fragments hash1 hash2
  = streamed state0' seed1 seed2 fragments hash1 hash2.
Proof.
  intros Hd Hd' Hfit. unfold streamed.
  destruct (spooky_init_well_formed state0 seed1 seed2 Hd)
    as (Hwf & HL & HR & H0 & H1 & _).
  destruct (spooky_init_well_formed state0' seed1 seed2 Hd')
    as (Hwf' & HL' & HR' & H0' & H1' & _).
  destruct (spooky_updates_alike fragments
              (spooky_init state0 seed1 seed2) (spooky_init state0' seed1 seed2))
    as (s & t & -> & -> & Hs & Ht & Halike & HLs); [done | done | | lia | lia |].
  - unfold alike, entry_vars, buffered.
    rewrite HL, HL', HR, HR', H0, H1, H0', H1', !take_0.
    repeat (split; [reflexivity |]). intros _. reflexivity.
  - cbn [mbind option_bind].
    by apply spooky_final_alike.
Qed.

Lemma init_resets_witness :
  let dirty :=
    State (replicate 96 xff) (9, 9, 9, 9, 9, 9, 9, 9, 9, 9, 9, 9) 77 33 in
  length (m_data blank_state) = 96%nat
  ∧ length (m_data dirty) = 96%nat
  ∧ len (joined long_fragments) + 96 <= 2 ^ 64
  ∧ streamed blank_state 1 2 long_fragments 0 0
    = streamed dirty 1 2 long_fragments 0 0.
Proof.
  intros dirty.
  assert (H1 : length (m_data blank_state) = 96%nat) by reflexivity.
  assert (H2 : length (m_data dirty) = 96%nat) by reflexivity.
  assert (H3 : len (joined long_fragments) + 96 <= 2 ^ 64) by (by vm_compute).
  do 3 (split; [assumption |]).
  exact (init_resets blank_state dirty 1 2 long_fragments 0 0 H1 H2 H3).
Defined.

(** ** The last 0..15 bytes of the short hash *)

Lemma p8_shift (mem : list byte) (u a : nat) :
  p8 mem (u + a) 0 = p8 mem u a.
Proof. unfold p8. f_equal. f_equal. lia. Qed.

Lemma le_read_from (n : nat) (mem : list byte) (u a : nat) :
  le_read n mem (u + a) = le_from (p8 mem u) n a.
Proof.
  revert a. induction n as [|n IH]; intros a; cbn [le_read le_from]; [done |].
  rewrite p8_shift. do 2 f_equal.
  replace (S (u + a)) with (u + S a)%nat by lia. apply IH.
Qed.

Lemma le_read_from_0 (n : nat) (mem : list byte) (u : nat) :
  le_read n mem u = le_from (p8 mem u) n 0.
Proof.
  transitivity (le_read n mem (u + 0)); [f_equal; lia | apply le_read_from].
Qed.

Lemma byte_val_range (b : byte) : 0 <= byte_val b < 256.
Proof.
  unfold byte_val.
  pose proof (Byte.to_N_bounded b) as H. lia.
Qed.

Lemma p8_range (mem : list byte) (u i : nat) : 0 <= p8 mem u i < 256.
Proof. apply byte_val_range. Qed.

Lemma shl64_byte (b k : Z) :
  0 <= b < 256 → 0 <= k <= 56 → shl64 b k = b * 2 ^ k.
Proof.
  intros Hb Hk. unfold shl64, modulus. rewrite Z.shiftl_mul_pow2 by lia.
  apply Z.mod_small.
  assert (2 ^ k <= 2 ^ 56) by (apply Z.pow_le_mono_r; lia).
  assert (0 < 2 ^ k) by (apply Z.pow_pos_nonneg; lia).
  change (2 ^ 64) with (256 * 2 ^ 56). nia.
Qed.

Lemma shl64_p8 (mem : list byte) (u i : nat) (k : Z) :
  0 <= k <= 56 → shl64 (p8 mem u i) k = p8 mem u i * 2 ^ k.
Proof. intros Hk. apply shl64_byte; [apply p8_range | done]. Qed.

Lemma add64_add64_l (a b c : Z) : add64 (add64 a b) c = add64 a (b + c).
Proof.
  unfold add64. rewrite Zplus_mod_idemp_l. f_equal. lia.
Qed.

Lemma add64_shl64_0 (x k : Z) : add64 (shl64 x k) 0 = shl64 x k.
Proof.
  unfold add64, shl64. rewrite Z.add_0_r. apply Z.mod_mod. by compute.
Qed.

(** One case of the [switch]: evaluate the case label, unfold the reads
    into bytes, and compare the two sums. *)
Ltac tail_case :=
  match goal with
  | |- context [Z.of_nat ?k] =>
      let v := eval vm_compute in (Z.of_nat k) in
      change (Z.of_nat k) with v
  end;
  repeat match goal with
    | |- context [Z.to_nat ?e] =>
        let v := eval vm_compute in (Z.to_nat e) in
        change (Z.to_nat e) with v
    end;
  unfold short_tail, short_switch, p32, p64;
  cbn -[add64 shl64 p8 le_read Nat.add Nat.mul];
  rewrite ?le_read_from, ?le_read_from_0;
  cbn [le_from Nat.mul Nat.add];
  rewrite ?shl64_p8 by lia;
  rewrite ?add64_add64_l, ?add64_shl64_0;
  f_equal; f_equal; lia.

(** X7: the tail step packs the last bytes in little-endian order: after
    [d = length << 56], the first eight (or fewer) remaining bytes are
    added to [c] as one little-endian number and the bytes from the
    ninth on are added to [d] as another; the cases 12, 8 and 4, which
    read whole words, fit the same rule.  With no byte left, [SC_CONST]
    is added to both. *)
Theorem short_tail_packs_little_endian (mem : list byte) (u : nat)
  (length remainder c d : Z) :
  (0 < remainder < 16 →
   short_tail mem u length remainder c d
   = (add64 c (le_read (Z.to_nat (Z.min remainder 8)) mem u),
      add64 (shl64 length 56)
        (le_read (Z.to_nat (remainder - 8)) mem (u + 8))))
  ∧ short_tail mem u length 0 c d
    = (add64 c SC_CONST, add64 (shl64 length 56) SC_CONST).
Proof.
  split; [| reflexivity].
  intros Hr.
  set (n := Z.to_nat remainder) in *.
  assert (Hn : remainder = Z.of_nat n) by lia.
  clearbody n. subst remainder.
  destruct n as [|n]; [lia |].
  do 15 (destruct n as [|n]; [clear Hr; tail_case |]).
  lia.
Qed.

Lemma short_tail_packs_little_endian_witness :
  0 < 3 < 16
  ∧ short_tail [x01; x02; x03] 0 3 3 5 7
    = (add64 5 (1 + 256 * 2 + 65536 * 3), shl64 3 56).
Proof.
  split; [lia |].
  rewrite (proj1 (short_tail_packs_little_endian [x01; x02; x03] 0 3 3 5 7))
    by lia.
  reflexivity.
Defined.

(** ** Words in range *)

Lemma add64_in64 (a b : Z) : in64 (add64 a b).
Proof. unfold in64, add64, modulus. apply Z.mod_pos_bound. lia. Qed.

Lemma shl64_in64 (x k : Z) : in64 (shl64 x k).
Proof. unfold in64, shl64, modulus. apply Z.mod_pos_bound. lia. Qed.

Lemma in64_log2 (x : Z) : in64 x ↔ 0 <= x ∧ Z.log2 x < 64.
Proof.
  unfold in64. split.
  - intros [H0 H1]. split; [done |].
    destruct (Z.eq_dec x 0) as [-> | Hne]; [by compute |].
    apply Z.log2_lt_pow2; lia.
  - intros [H0 H1]. split; [done |].
    destruct (Z.eq_dec x 0) as [-> | Hne]; [by compute |].
    apply Z.log2_lt_pow2; lia.
Qed.

Lemma lxor_in64 (a b : Z) : in64 a → in64 b → in64 (Z.lxor a b).
Proof.
  rewrite !in64_log2. intros [Ha La] [Hb Lb].
  split; [by apply Z.lxor_nonneg |].
  pose proof (Z.log2_lxor a b Ha Hb). lia.
Qed.

Lemma lor_in64 (a b : Z) : in64 a → in64 b → in64 (Z.lor a b).
Proof.
  rewrite !in64_log2. intros [Ha La] [Hb Lb].
  split; [by apply Z.lor_nonneg |].
  rewrite (Z.log2_lor a b Ha Hb). lia.
Qed.

Lemma rotl_in64 (x k : Z) : in64 x → 0 <= 64 - k → in64 (rotl x k).
Proof.
  intros Hx Hk. unfold rotl. apply lor_in64; [apply shl64_in64 |].
  unfold shr64, in64 in *. rewrite Z.shiftr_div_pow2 by lia.
  assert (0 < 2 ^ (64 - k)) by (apply Z.pow_pos_nonneg; lia).
  split; [apply Z.div_pos; lia |].
  apply Z.le_lt_trans with x; [| lia].
  apply Z.div_le_upper_bound; [lia | nia].
Qed.

(** ** The networks of [spooky.h] *)

Ltac header_network :=
  cbv -[add64 shl64 shr64 Z.lxor Z.lor data_at]; reflexivity.

(** X9: the networks of the C file compute what the inline networks of
    the C++ header [spooky.h] compute, for all inputs. *)
Theorem c_networks_match_header :
  (∀ x k, SpookyH.Rot64 x k = rot64 x k)
  ∧ (∀ data v, SpookyH.Mix data v = mix data v)
  ∧ (∀ v, SpookyH.End v = End v)
  ∧ (∀ v, SpookyH.ShortMix v = short_mix v)
  ∧ (∀ v, SpookyH.ShortEnd v = short_end v).
Proof.
  split; [reflexivity |].
  split; [intros data v; destruct_vars v; header_network |].
  split; [intros v; destruct_vars v; header_network |].
  split; intros v; destruct_vars v; header_network.
Qed.

(** ** The state of a session *)

(** X10: after [spooky_init] and any sequence of [spooky_update] calls
    the state has a 96-byte buffer, [0 <= m_remainder < 96], and
    [m_length] is the number of bytes appended; as long as that number
    is below 96, [m_remainder] equals it and the buffer starts with all
    the bytes appended. *)
Theorem session_invariants (state0 : spooky_state) (seed1 seed2 : Z)
  (fragments : list (bool * list byte)) :
  length (m_data state0) = 96%nat →
  len (joined fragments) + 96 <= 2 ^ 64 →
  ∃ state,
    spooky_updates (spooky_init state0 seed1 seed2) fragments = Some state
    ∧ length (m_data state) = 96%nat
    ∧ 0 <= m_remainder state < 96
    ∧ m_length state = len (joined fragments)
    ∧ (m_length state < 96 →
       m_remainder state = m_length state
       ∧ take (Z.to_nat (m_length state)) (m_data state) = joined fragments).
Proof.
  intros Hd Hfit.
  destruct (spooky_init_well_formed state0 seed1 seed2 Hd)
    as (Hwf & HL & HR & _).
  destruct (spooky_updates_invariant fragments
              (spooky_init state0 seed1 seed2) [])
    as (state & E & [Hd' Hr'] & HL' & Hbuf);
    [done | done | | change (len []) with 0; lia |].
  { intros _. rewrite HL, HR. split; [reflexivity |].
    unfold buffered. by rewrite HR, take_0. }
  exists state. cbn [app] in *. do 4 (split; [assumption || lia |]).
  intros Hshort. destruct (Hbuf Hshort) as [HR' HB].
  split; [exact HR' |]. rewrite <- HR'. exact HB.
Qed.

Lemma session_invariants_witness :
  length (m_data blank_state) = 96%nat
  ∧ len (joined long_fragments) + 96 <= 2 ^ 64
  ∧ ∃ state,
      spooky_updates (spooky_init blank_state 1 2) long_fragments = Some state
      ∧ m_length state = 200.
Proof.
  assert (H1 : length (m_data blank_state) = 96%nat) by reflexivity.
  assert (H2 : len (joined long_fragments) + 96 <= 2 ^ 64) by (by vm_compute).
  split; [exact H1 |]. split; [exact H2 |].
  destruct (session_invariants blank_state 1 2 long_fragments H1 H2)
    as (state & E & _ & _ & HL & _).
  exists state. split; [exact E |]. rewrite HL. by vm_compute.
Defined.

(** X11: in a session none of whose calls starts with bytes held back
    and ends exactly on a multiple of 96 bytes, [m_remainder] is the
    byte count modulo 96, the buffer starts with the bytes after the
    last whole block, and from 96 bytes on [m_state] holds the seeded
    variables mixed with every whole block, in order. *)
Theorem clean_session_state (state0 : spooky_state) (seed1 seed2 : Z)
  (fragments : list (bool * list byte)) :
  length (m_data state0) = 96%nat →
  len (joined fragments) + 96 <= 2 ^ 64 →
  clean_boundaries 0 fragments = true →
  ∃ state,
    spooky_updates (spooky_init state0 seed1 seed2) fragments = Some state
    ∧ m_remainder state = len (joined fragments) mod 96
    ∧ take (Z.to_nat (m_remainder state)) (m_data state)
      = drop (length (joined fragments) - Z.to_nat (m_remainder state))
          (joined fragments)
    ∧ (96 <= len (joined fragments) →
       mix_blocks (length (joined fragments) / 96) (joined fragments) 0
         (seed_vars seed1 seed2)
       = Some (m_state state)).
Proof.
  intros Hd Hfit Hclean.
  destruct (tracks_updates seed1 seed2 fragments []
              (spooky_init state0 seed1 seed2))
    as (state & E & Htr); [by apply tracks_init | done | done |].
  cbn [app] in Htr. destruct Htr as (_ & _ & HR & HB & _ & Hmix).
  exists state. split; [exact E |].
  split; [rewrite HR; unfold len; lia |].
  split; [| exact Hmix].
  unfold buffered in HB. rewrite HB, HR, Nat2Z.id. reflexivity.
Qed.

Lemma clean_session_state_witness :
  length (m_data blank_state) = 96%nat
  ∧ len (joined long_fragments) + 96 <= 2 ^ 64
  ∧ clean_boundaries 0 long_fragments = true
  ∧ ∃ state,
      spooky_updates (spooky_init blank_state 1 2) long_fragments = Some state
      ∧ m_remainder state = 8.
Proof.
  assert (H1 : length (m_data blank_state) = 96%nat) by reflexivity.
  assert (H2 : len (joined long_fragments) + 96 <= 2 ^ 64) by (by vm_compute).
  assert (H3 : clean_boundaries 0 long_fragments = true) by (by vm_compute).
  do 3 (split; [assumption |]).
  destruct (clean_session_state blank_state 1 2 long_fragments H1 H2 H3)
    as (state & E & HR & _).
  exists state. split; [exact E |]. rewrite HR. by vm_compute.
Defined.

(** ** The networks lose no information *)

Lemma add64_cancel (a a' b b' : Z) :
  in64 a → in64 a' → b = b' → add64 a b = add64 a' b' → a = a'.
Proof.
  unfold in64, add64, modulus. intros Ha Ha' <- E.
  pose proof (Z.div_mod (a + b) (2 ^ 64)).
  pose proof (Z.div_mod (a' + b) (2 ^ 64)).
  assert (a - a' = 2 ^ 64 * ((a + b) / 2 ^ 64 - (a' + b) / 2 ^ 64)) by lia.
  nia.
Qed.

Lemma lxor_cancel (a a' b b' : Z) :
  b = b' → Z.lxor a b = Z.lxor a' b' → a = a'.
Proof.
  intros <- E.
  rewrite <- (Z.lxor_0_r a), <- (Z.lxor_0_r a'), <- (Z.lxor_nilpotent b).
  by rewrite <- !Z.lxor_assoc, E.
Qed.

Lemma in64_bits_high (x n : Z) : in64 x → 64 <= n → Z.testbit x n = false.
Proof.
  intros Hx Hn. apply in64_log2 in Hx as [H0 HL].
  apply Z.bits_above_log2; lia.
Qed.

Lemma rotl_testbit (x k m : Z) :
  in64 x → 1 <= k <= 63 → 0 <= m < 64 →
  Z.testbit (rotl x k) m
  = if m <? k then Z.testbit x (m + (64 - k)) else Z.testbit x (m - k).
Proof.
  intros Hx Hk Hm. unfold rotl, shl64, shr64, modulus.
  rewrite Z.lor_spec, Z.mod_pow2_bits_low by lia.
  rewrite Z.shiftl_spec, Z.shiftr_spec by lia.
  destruct (m <? k) eqn:E.
  - apply Z.ltb_lt in E. rewrite (Z.testbit_neg_r x (m - k)) by lia. done.
  - apply Z.ltb_ge in E.
    rewrite (in64_bits_high x (m + (64 - k))) by (done || lia).
    apply orb_false_r.
Qed.

Lemma rotl_inj (x x' k : Z) :
  1 <= k <= 63 → in64 x → in64 x' → rotl x k = rotl x' k → x = x'.
Proof.
  intros Hk Hx Hx' E. apply Z.bits_inj'. intros n Hn.
  destruct (Z_lt_le_dec n 64) as [Hlt | Hge].
  - destruct (Z_lt_le_dec (n + k) 64) as [Hlow | Hhigh].
    + pose proof (rotl_testbit x k (n + k) Hx Hk ltac:(lia)) as B.
      pose proof (rotl_testbit x' k (n + k) Hx' Hk ltac:(lia)) as B'.
      assert ((n + k <? k) = false) as F by (apply Z.ltb_ge; lia).
      rewrite F in B, B'. replace (n + k - k) with n in B, B' by lia.
      by rewrite <- B, <- B', E.
    + pose proof (rotl_testbit x k (n + k - 64) Hx Hk ltac:(lia)) as B.
      pose proof (rotl_testbit x' k (n + k - 64) Hx' Hk ltac:(lia)) as B'.
      assert ((n + k - 64 <? k) = true) as F by (apply Z.ltb_lt; lia).
      rewrite F in B, B'.
      replace (n + k - 64 + (64 - k)) with n in B, B' by lia.
      by rewrite <- B, <- B', E.
  - by rewrite !in64_bits_high.
Qed.

(** A range goal on a word built from accumulators in range. *)
Ltac in64_vars :=
  repeat first
    [ assumption
    | apply add64_in64
    | apply lxor_in64
    | apply rotl_in64; [| lia] ].

(** Undo one operation of a network: from the equality of two results
    and of the operands that were not changed, the equality of the
    operands that were. *)
Ltac unknown a a' :=
  lazymatch goal with
  | _ : a = a' |- _ => fail
  | _ => idtac
  end.

Ltac undo_step :=
  match goal with
  | H : add64 ?a ?b = add64 ?a' ?b |- _ =>
      unknown a a';
      assert (a = a')
        by (apply (add64_cancel a a' b b); [in64_vars | in64_vars | reflexivity | exact H])
  | H : add64 ?a ?b = add64 ?a' ?b', Hb : ?b = ?b' |- _ =>
      unknown a a';
      assert (a = a')
        by (apply (add64_cancel a a' b b'); [in64_vars | in64_vars | exact Hb | exact H])
  | H : Z.lxor ?a ?b = Z.lxor ?a' ?b', Hb : ?b = ?b' |- _ =>
      unknown a a';
      assert (a = a') by (exact (lxor_cancel a a' b b' Hb H))
  | H : rotl ?a ?k = rotl ?a' ?k |- _ =>
      unknown a a';
      assert (a = a')
        by (apply (rotl_inj a a' k); [lia | in64_vars | in64_vars | exact H])
  end.

Ltac split_words :=
  repeat match goal with
    | H : Forall _ (_ :: _) |- _ =>
        let H1 := fresh "W" in
        apply Forall_cons in H as [H1 H]
    | H : Forall _ [] |- _ => clear H
    end.

Ltac undo_network E :=
  cbv -[add64 rotl Z.lxor data_at] in E;
  injection E; clear E; intros;
  repeat undo_step.

Lemma short_mix_inj (v w : vars4) :
  words4 v → words4 w → short_mix v = short_mix w → v = w.
Proof.
  destruct_vars v. destruct_vars w. unfold words4. cbn [vars4_list].
  intros Hv Hw E. split_words. undo_network E. congruence.
Qed.

Lemma short_end_inj (v w : vars4) :
  words4 v → words4 w → short_end v = short_end w → v = w.
Proof.
  destruct_vars v. destruct_vars w. unfold words4. cbn [vars4_list].
  intros Hv Hw E. split_words. undo_network E. congruence.
Qed.

Lemma mix_inj (data : list Z) (v w : vars12) :
  words12 v → words12 w → mix data v = mix data w → v = w.
Proof.
  destruct_vars v. destruct_vars w. unfold words12. cbn [vars12_list].
  intros Hv Hw E. split_words. undo_network E. congruence.
Qed.

Lemma end_pass_inj (v w : vars12) :
  words12 v → words12 w → end_pass v = end_pass w → v = w.
Proof.
  destruct_vars v. destruct_vars w. unfold words12. cbn [vars12_list].
  intros Hv Hw E. split_words. undo_network E. congruence.
Qed.

Lemma end_pass_words (v w : vars12) :
  words12 v → end_pass v = Some w → words12 w.
Proof.
  destruct_vars v. unfold words12 at 1. cbn [vars12_list].
  intros Hv E. split_words.
  cbv -[add64 rotl Z.lxor data_at] in E. injection E as <-.
  unfold words12. cbn [vars12_list].
  repeat apply Forall_cons_2; try apply Forall_nil_2; in64_vars.
Qed.

Lemma End_inj (v w : vars12) :
  words12 v → words12 w → End v = End w → v = w.
Proof.
  intros Hv Hw. unfold End.
  destruct (end_pass_total v) as [v' Ev], (end_pass_total w) as [w' Ew].
  rewrite Ev, Ew. cbn [mbind option_bind]. intros E.
  apply end_pass_inj in E;
    [| by apply (end_pass_words v) | by apply (end_pass_words w)].
  subst w'. apply end_pass_inj; [done | done |]. by rewrite Ev, Ew.
Qed.

(** X12: the four networks lose no information: on accumulators that
    hold 64-bit words each of [mix] (for every data block), [End],
    [short_mix] and [short_end] is injective. *)
Theorem networks_are_injective :
  (∀ data v w, words12 v → words12 w → mix data v = mix data w → v = w)
  ∧ (∀ v w, words12 v → words12 w → End v = End w → v = w)
  ∧ (∀ v w, words4 v → words4 w → short_mix v = short_mix w → v = w)
  ∧ (∀ v w, words4 v → words4 w → short_end v = short_end w → v = w).
Proof.
  split; [exact mix_inj |]. split; [exact End_inj |].
  split; [exact short_mix_inj | exact short_end_inj].
Qed.

Lemma networks_are_injective_witness :
  words4 (1, 2, 3, 4) ∧ words4 (1, 2, 3, 5)
  ∧ short_mix (1, 2, 3, 4) ≠ short_mix (1, 2, 3, 5).
Proof.
  assert (H1 : words4 (1, 2, 3, 4))
    by (repeat apply Forall_cons_2; try apply Forall_nil_2; unfold in64; lia).
  assert (H2 : words4 (1, 2, 3, 5))
    by (repeat apply Forall_cons_2; try apply Forall_nil_2; unfold in64; lia).
  split; [exact H1 |]. split; [exact H2 |].
  intros E.
  pose proof (proj1 (proj2 (proj2 networks_are_injective)) _ _ H1 H2 E) as F.
  discriminate F.
Defined.

(** ** The two loops over whole blocks *)

(** X13: whether [spooky_update] reads the whole blocks in place or
    copies each one to [m_data] first (the alignment test of line 346),
    it returns, and the two states agree on [m_state], [m_length] and
    [m_remainder].  They agree on the held-back bytes as well unless
    the call started with bytes held back, ended on a multiple of 96 and
    went through a whole block in the loop; in that case the hash can
    depend on the path, as it does for 192 bytes fed as 50 + 142. *)
Theorem update_paths_agree :
  (∀ state message,
     well_formed state → len message + 96 <= 2 ^ 64 →
     ∃ s t,
       spooky_update state true message (len message) = Some s
       ∧ spooky_update state false message (len message) = Some t
       ∧ m_state s = m_state t
       ∧ m_length s = m_length t
       ∧ m_remainder s = m_remainder t
       ∧ ((len message + m_remainder state) mod 96 ≠ 0
          ∨ m_remainder state = 0
          ∨ len message + m_remainder state < 192 →
          buffered s = buffered t))
  ∧ streamed blank_state 1 2 (two_block_fragments true) 0 0
    ≠ streamed blank_state 1 2 (two_block_fragments false) 0 0.
Proof.
  split; [| by vm_compute].
  intros state message Hwf Hfit.
  pose proof (len_nonneg message) as Hn. pose proof Hwf as [Hd Hr].
  destruct (Z_lt_le_dec (len message + m_remainder state) 96) as [Hs | Hl].
  { rewrite !update_short by done. eauto 10. }
  rewrite !update_long by done.
  set (v := if m_length state <? 96 then _ else _). clearbody v.
  set (total := size_wrap _). clearbody total.
  destruct (m_remainder state =? 0) eqn:E0.
  - apply Z.eqb_eq in E0.
    rewrite !update_blocks_normal by (cbn; unfold len in *; lia).
    destruct (mix_blocks_total (Z.to_nat (len message / 96)) message 0 v)
      as [v' ->].
    cbn [mbind option_bind orb set_m_length m_data m_length m_remainder].
    destruct (0 <? len message mod 96) eqn:Er.
    + do 2 eexists. do 2 (split; [reflexivity |]).
      cbn [m_state m_length m_remainder]. do 3 (split; [reflexivity |]).
      intros _. unfold buffered. cbn [m_remainder m_data].
      apply Z.ltb_lt in Er.
      pose proof (Z.mod_pos_bound (len message) 96 ltac:(lia)).
      pose proof (Z.div_mod (len message) 96 ltac:(lia)).
      assert (Z.of_nat (Z.to_nat (len message / 96)) = len message / 96)
        by (rewrite Z2Nat.id; [done | apply Z.div_pos; lia]).
      assert (Hrest : length (drop (0 + Z.to_nat (len message / 96) * 96)
                                message)
                      = Z.to_nat (len message mod 96))
        by (rewrite length_drop; unfold len in *; lia).
      by rewrite !(take_memcpy_front _ _ _ Hrest).
    + do 2 eexists. do 2 (split; [reflexivity |]).
      cbn [m_state m_length m_remainder]. do 3 (split; [reflexivity |]).
      intros _. unfold buffered. cbn [m_remainder m_data].
      by rewrite E0, !take_0.
  - apply Z.eqb_neq in E0.
    set (r := Z.to_nat (m_remainder state)).
    set (data := buffered state ++ take (96 - r) message).
    assert (Hdata : length data = 96%nat).
    { unfold data. rewrite length_app, length_buffered, length_take by done.
      unfold len in *. lia. }
    destruct (mix_total (words data 0) v) as [v1 ->].
    cbn [mbind option_bind].
    set (n := len message - (96 - m_remainder state)).
    rewrite !update_blocks_normal by (cbn; unfold len in *; lia).
    destruct (mix_blocks_total (Z.to_nat (n / 96)) message (96 - r) v1)
      as [v' ->].
    cbn [mbind option_bind orb set_m_length set_m_data m_data m_length
           m_remainder].
    pose proof (Z.mod_pos_bound n 96 ltac:(lia)).
    pose proof (Z.div_mod n 96 ltac:(lia)).
    assert (Z.of_nat (Z.to_nat (n / 96)) = n / 96)
      by (rewrite Z2Nat.id; [done | apply Z.div_pos; lia]).
    destruct (0 <? n mod 96) eqn:Er.
    + do 2 eexists. do 2 (split; [reflexivity |]).
      cbn [m_state m_length m_remainder]. do 3 (split; [reflexivity |]).
      intros _. unfold buffered. cbn [m_remainder m_data].
      apply Z.ltb_lt in Er.
      assert (Hrest : length (drop (96 - r + Z.to_nat (n / 96) * 96) message)
                      = Z.to_nat (n mod 96))
        by (rewrite length_drop; unfold len in *; lia).
      by rewrite !(take_memcpy_front _ _ _ Hrest).
    + do 2 eexists. do 2 (split; [reflexivity |]).
      cbn [m_state m_length m_remainder]. do 3 (split; [reflexivity |]).
      apply Z.ltb_ge in Er.
      intros Hcase. unfold buffered. cbn [m_remainder m_data].
      assert (Hmod : (len message + m_remainder state) mod 96 = n mod 96).
      { unfold n.
        replace (len message + m_remainder state)
          with (len message - (96 - m_remainder state) + 1 * 96) by lia.
        apply Z.mod_add. lia. }
      assert (Hk : Z.to_nat (n / 96) = 0%nat) by lia.
      by rewrite Hk.
Qed.

Lemma update_paths_agree_witness :
  well_formed (spooky_init blank_state 1 2)
  ∧ len (count_bytes 200) + 96 <= 2 ^ 64
  ∧ ∃ s t,
      spooky_update (spooky_init blank_state 1 2) true (count_bytes 200)
        (len (count_bytes 200)) = Some s
      ∧ spooky_update (spooky_init blank_state 1 2) false (count_bytes 200)
          (len (count_bytes 200)) = Some t
      ∧ m_state s = m_state t.
Proof.
  assert (H1 : well_formed (spooky_init blank_state 1 2))
    by (split; [reflexivity | by vm_compute]).
  assert (H2 : len (count_bytes 200) + 96 <= 2 ^ 64) by (by vm_compute).
  split; [exact H1 |]. split; [exact H2 |].
  destruct (proj1 update_paths_agree _ _ H1 H2) as (s & t & Es & Et & Hv & _).
  exists s, t. do 2 (split; [assumption |]). exact Hv.
Defined.
